(** * A shallow embedding of [src/forth.rs]

    The interpreter is modelled in a small state/error monad [ST S A]:
    a computation takes the mutable state [S] and returns the state it leaves
    behind together with an [Outcome].  Rust's [?] on an [Err] keeps every
    mutation already done to [self] (the interpreter's dictionary), so the
    state is returned on failure as well as on success.

    Modelling choices:
    - tokens are ASCII strings; [to_uppercase] and [split_whitespace] are the
      ASCII parts of Rust's Unicode functions;
    - [Value] is [i32], kept as [Z]; [+], [-] and [*] wrap in two's complement
      (release build), while [i32] division by [-1] of [i32::MIN] panics in
      every build;
    - recursion of [evaluate_character] carries a depth bound and the
      [while] loops a step bound; running out of either yields [OutOfFuel],
      which is proved never to happen on reachable states. *)

From Stdlib Require Import String Ascii List ZArith Lia Bool.
Import ListNotations.
Open Scope Z_scope.

(** ** Data *)

Definition Value := Z.

Inductive Error := DivisionByZero | StackUnderflow | UnknownWord | InvalidWord.

(** Reasons for a Rust panic: [unwrap] on [None], [split_at] past the end,
    and the overflow of [i32] division. *)
Inductive PanicKind := UnwrapNone | SplitAtOutOfBounds | DivOverflow.

Inductive Outcome (A : Type) :=
| Ok (a : A)
| Err (e : Error)
| Panic (p : PanicKind)
| OutOfFuel.
Arguments Ok {A} a.
Arguments Err {A} e.
Arguments Panic {A} p.
Arguments OutOfFuel {A}.

(** [pub enum Operator] ([Operator] is a keyword of Rocq). *)
Inductive Op := Add | Sub | Mul | Div | Dup | Drop | Swap | Over.

(** [pub struct Variable] ([Variable] is a keyword of Rocq): a user word,
    its body and its snapshot index. *)
Record Var := mkVar {
  word : string;
  definition : list string;
  definitions_index : nat
}.

(** [pub enum InputValue] (constructors prefixed, [Definition] being a
    keyword of Rocq). *)
Inductive InputValue :=
| IV_Number (n : Value)
| IV_Operator (op : Op)
| IV_Definition
| IV_Variable (v : Var)
| IV_Void.

(** [pub struct Forth]. *)
Record Forth := mkForth {
  stack : list Value;
  definitions : list Var
}.

Definition new : Forth := mkForth [] [].

(** The state threaded through one [eval] call: [self.definitions] and the
    working stack [stack] local to [eval]. *)
Record Machine := mkMachine {
  self_definitions : list Var;
  working : list Value
}.

(** ** The state/error monad *)

Definition ST (S A : Type) := S -> S * Outcome A.

Definition ret {S A} (a : A) : ST S A := fun s => (s, Ok a).
Definition throw {S A} (e : Error) : ST S A := fun s => (s, Err e).
Definition panic {S A} (p : PanicKind) : ST S A := fun s => (s, Panic p).
Definition out_of_fuel {S A} : ST S A := fun s => (s, OutOfFuel).

Definition bind {S A B} (m : ST S A) (k : A -> ST S B) : ST S B :=
  fun s =>
    match m s with
    | (s', Ok a) => k a s'
    | (s', Err e) => (s', Err e)
    | (s', Panic p) => (s', Panic p)
    | (s', OutOfFuel) => (s', OutOfFuel)
    end.

Notation "x <- m ;; k" := (bind m (fun x => k))
  (at level 61, m at next level, right associativity).
Notation "m ;;; k" := (bind m (fun _ => k))
  (at level 61, right associativity).

Definition unwrap {S A} (o : option A) : ST S A :=
  match o with Some a => ret a | None => panic UnwrapNone end.

(** ** Strings *)

Definition is_digit10 (c : ascii) : bool :=
  let n := nat_of_ascii c in (48 <=? n)%nat && (n <=? 57)%nat.

Definition ascii_to_upper (c : ascii) : ascii :=
  let n := nat_of_ascii c in
  if (97 <=? n)%nat && (n <=? 122)%nat then ascii_of_nat (n - 32) else c.

Fixpoint to_uppercase (s : string) : string :=
  match s with
  | EmptyString => EmptyString
  | String c s' => String (ascii_to_upper c) (to_uppercase s')
  end.

(** [char::is_whitespace] on ASCII: tab, line feed, vertical tab, form feed,
    carriage return and space. *)
Definition is_whitespace (c : ascii) : bool :=
  let n := nat_of_ascii c in ((9 <=? n)%nat && (n <=? 13)%nat) || (n =? 32)%nat.

Fixpoint split_ws (s : string) (cur : string) : list string :=
  match s with
  | EmptyString => if String.eqb cur "" then [] else [cur]
  | String c s' =>
      if is_whitespace c
      then (if String.eqb cur "" then split_ws s' "" else cur :: split_ws s' "")
      else split_ws s' (cur ++ String c "")
  end.

Definition split_whitespace (s : string) : list string := split_ws s "".

(** [str::parse::<i32>]: an optional sign, then one or more decimal digits,
    the value in the range of [i32]. *)
Fixpoint digits_value (s : string) (acc : Z) : option Z :=
  match s with
  | EmptyString => Some acc
  | String c s' =>
      if is_digit10 c
      then digits_value s' (acc * 10 + (Z.of_nat (nat_of_ascii c) - 48))
      else None
  end.

Definition parse_digits (s : string) : option Z :=
  match s with EmptyString => None | _ => digits_value s 0 end.

Definition i32_min : Z := - 2 ^ 31.
Definition i32_max : Z := 2 ^ 31 - 1.

Definition parse_i32 (s : string) : option Value :=
  let r :=
    match s with
    | String "+"%char rest => parse_digits rest
    | String "-"%char rest => option_map Z.opp (parse_digits rest)
    | _ => parse_digits s
    end in
  match r with
  | Some z => if (i32_min <=? z) && (z <=? i32_max) then Some z else None
  | None => None
  end.

(** Two's-complement wrap-around of [i32]. *)
Definition wrap32 (z : Z) : Value := (z + 2 ^ 31) mod 2 ^ 32 - 2 ^ 31.

(** ** [Operator::operate] on the working stack (top = end of the list). *)

Definition len_check (n : nat) : ST (list Value) unit :=
  fun s => if (length s <? n)%nat then (s, Err StackUnderflow) else (s, Ok tt).

Definition pop_unwrap : ST (list Value) Value :=
  fun s => match s with
           | [] => (s, Panic UnwrapNone)
           | _ => (removelast s, Ok (last s 0))
           end.

Definition push (v : Value) : ST (list Value) unit := fun s => (s ++ [v], Ok tt).

(** [b.div(a)] for [a <> 0]: panics on [i32::MIN / -1]. *)
Definition i32_div (b a : Value) : ST (list Value) Value :=
  if (b =? i32_min) && (a =? -1) then panic DivOverflow else ret (Z.quot b a).

Definition operate (op : Op) : ST (list Value) unit :=
  match op with
  | Add => len_check 2 ;;; a <- pop_unwrap ;; b <- pop_unwrap ;; push (wrap32 (a + b))
  | Sub => len_check 2 ;;; a <- pop_unwrap ;; b <- pop_unwrap ;; push (wrap32 (b - a))
  | Mul => len_check 2 ;;; a <- pop_unwrap ;; b <- pop_unwrap ;; push (wrap32 (b * a))
  | Div => len_check 2 ;;; a <- pop_unwrap ;; b <- pop_unwrap ;;
           if a =? 0 then throw DivisionByZero else q <- i32_div b a ;; push q
  | Dup => len_check 1 ;;; a <- pop_unwrap ;; push a ;;; push a
  | Drop => len_check 1 ;;; _ <- pop_unwrap ;; ret tt
  | Swap => len_check 2 ;;; a <- pop_unwrap ;; b <- pop_unwrap ;; push a ;;; push b
  | Over => len_check 2 ;;; a <- pop_unwrap ;; b <- pop_unwrap ;;
            push b ;;; push a ;;; push b
  end.

(** ** [Forth::evaluate_input]: classification of one token *)

Definition operator_of (s : string) : option Op :=
  if String.eqb s "+" then Some Add
  else if String.eqb s "-" then Some Sub
  else if String.eqb s "*" then Some Mul
  else if String.eqb s "/" then Some Div
  else if String.eqb s "DUP" then Some Dup
  else if String.eqb s "DROP" then Some Drop
  else if String.eqb s "SWAP" then Some Swap
  else if String.eqb s "OVER" then Some Over
  else None.

Definition evaluate_input (val : string) (defs : list Var) : InputValue :=
  if String.eqb val ":" then IV_Definition
  else
    match find (fun x => String.eqb (word x) (to_uppercase val)) (rev defs) with
    | Some variable => IV_Variable variable
    | None =>
        match operator_of (to_uppercase val) with
        | Some op => IV_Operator op
        | None =>
            match parse_i32 val with
            | Some number => IV_Number number
            | None => IV_Void
            end
        end
    end.

(** ** [Forth::evaluate_character] *)

Definition on_stack {A} (m : ST (list Value) A) : ST Machine A :=
  fun st => let (s', o) := m (working st) in
            (mkMachine (self_definitions st) s', o).

Definition get_defs : ST Machine (list Var) :=
  fun st => (st, Ok (self_definitions st)).

Definition push_def (v : Var) : ST Machine unit :=
  fun st => (mkMachine (self_definitions st ++ [v]) (working st), Ok tt).

(** [slice::split_at(k).0], which panics when [k > len]. *)
Definition split_at_fst (k : nat) (d : list Var) : ST Machine (list Var) :=
  if (k <=? length d)%nat then ret (firstn k d) else panic SplitAtOutOfBounds.

Fixpoint take_while {A} (p : A -> bool) (l : list A) : list A :=
  match l with
  | [] => []
  | x :: l' => if p x then x :: take_while p l' else []
  end.

Fixpoint position {A} (p : A -> bool) (l : list A) : option nat :=
  match l with
  | [] => None
  | x :: l' => if p x then Some 0%nat else option_map S (position p l')
  end.

Definition is_semi (x : string) : bool := String.eqb x ";".

Definition starts_with_digit (s : string) : bool :=
  match s with String c _ => is_digit10 c | EmptyString => false end.

(** The [while j < len] loop running a word's body: on each iteration the
    visible dictionary is recomputed as
    [self.definitions.clone().split_at(variable.definitions_index).0]. *)
Fixpoint body_loop (ec : nat -> list string -> list Var -> ST Machine nat)
    (variable : Var) (steps j : nat) : ST Machine unit :=
  if (j <? length (definition variable))%nat then
    match steps with
    | O => out_of_fuel
    | S steps' =>
        d <- get_defs ;;
        vis <- split_at_fst (definitions_index variable) d ;;
        j' <- ec j (definition variable) vis ;;
        body_loop ec variable steps' (S j')
    end
  else ret tt.

Definition run_body (ec : nat -> list string -> list Var -> ST Machine nat)
    (variable : Var) : ST Machine unit :=
  body_loop ec variable (length (definition variable)) 0.

(** Returns the new value of [*i]. *)
Fixpoint evaluate_character (depth : nat) (i : nat) (input : list string)
    (defs : list Var) {struct depth} : ST Machine nat :=
  match depth with
  | O => out_of_fuel
  | S depth' =>
      tok <- unwrap (nth_error input i) ;;
      match evaluate_input tok defs with
      | IV_Number num => on_stack (push num) ;;; ret i
      | IV_Operator op => on_stack (operate op) ;;; ret i
      | IV_Definition =>
          let definition := take_while (fun x => negb (is_semi x)) (skipn (i + 2) input) in
          if match position is_semi input with None => true | Some _ => false end
             || (length definition <? 1)%nat
          then throw InvalidWord
          else
            definition_name <- unwrap (nth_error input (i + 1)) ;;
            if starts_with_digit definition_name then throw InvalidWord
            else
              d <- get_defs ;;
              push_def (mkVar (to_uppercase definition_name) definition (length d)) ;;;
              ret (i + (length definition + 2))%nat
      | IV_Variable variable => run_body (evaluate_character depth') variable ;;; ret i
      | IV_Void => throw UnknownWord
      end
  end.

(** ** [Forth::eval] *)

(** The top-level [while i < input.len()] loop; [definitions] is
    [self.definitions.clone()] taken afresh on every iteration. *)
Fixpoint top_loop (steps i : nat) (input : list string) : ST Machine unit :=
  if (i <? length input)%nat then
    match steps with
    | O => out_of_fuel
    | S steps' =>
        d <- get_defs ;;
        j <- evaluate_character (S (length d)) i input d ;;
        top_loop steps' (S j) input
    end
  else ret tt.

(** The working stack starts empty; it is assigned to [self.stack] only when
    the loop finishes without error, while [self.definitions] keeps whatever
    was pushed to it. *)
Definition eval (self : Forth) (text : string) : Forth * Outcome unit :=
  let input := split_whitespace text in
  let (m, o) := top_loop (length input) 0 input (mkMachine (definitions self) []) in
  match o with
  | Ok _ => (mkForth (working m) (self_definitions m), Ok tt)
  | _ => (mkForth (stack self) (self_definitions m), o)
  end.

(** The instance states a program can observe: those built by [new] and a
    sequence of [eval] calls. *)
Inductive reachable : Forth -> Prop :=
| reachable_new : reachable new
| reachable_eval st text : reachable st -> reachable (fst (eval st text)).

(** ** Auxiliary definitions used in the statements *)

(** The depth [stack.len() < n] guard of each arm of [operate] checks. *)
Definition required_depth (op : Op) : nat :=
  match op with Dup | Drop => 1 | _ => 2 end%nat.

(** What [evaluate_input] returns for a token that no visible user word
    matches. *)
Definition builtin_or_number (val : string) : InputValue :=
  match operator_of (to_uppercase val) with
  | Some op => IV_Operator op
  | None =>
      match parse_i32 val with
      | Some n => IV_Number n
      | None => IV_Void
      end
  end.

(** Running a word body against one fixed visible dictionary [vis]. *)
Fixpoint body_loop_fixed (ec : nat -> list string -> list Var -> ST Machine nat)
    (vis : list Var) (body : list string) (steps j : nat) : ST Machine unit :=
  if (j <? length body)%nat then
    match steps with
    | O => out_of_fuel
    | S steps' =>
        j' <- ec j body vis ;;
        body_loop_fixed ec vis body steps' (S j')
    end
  else ret tt.

Definition run_word (depth : nat) (v : Var) : ST Machine unit :=
  run_body (evaluate_character depth) v.

Definition run_fixed (depth : nat) (vis : list Var) (body : list string)
  : ST Machine unit :=
  body_loop_fixed (evaluate_character depth) vis body (length body) 0.

(** Dictionary invariant: the entry at position [p] has snapshot index [p]
    and a body without the token [;]. *)
Definition wf_defs (D : list Var) : Prop :=
  forall p v, nth_error D p = Some v ->
    definitions_index v = p /\ ~ In ";"%string (definition v).

(** The effect of running [f] on a dictionary [D], framed by a suffix [E]. *)
Definition framed {A} (D E : list Var) (f : ST Machine A) : Prop :=
  forall w,
    self_definitions (fst (f (mkMachine D w))) = D /\
    f (mkMachine (D ++ E) w)
    = (mkMachine (D ++ E) (working (fst (f (mkMachine D w)))), snd (f (mkMachine D w))).

(** A decidable check of [wf_defs], starting at position [n]. *)
Fixpoint wf_defsb_from (n : nat) (D : list Var) : bool :=
  match D with
  | [] => true
  | v :: D' =>
      (definitions_index v =? n)%nat && negb (existsb is_semi (definition v))
      && wf_defsb_from (S n) D'
  end.

Definition wf_defsb (D : list Var) : bool := wf_defsb_from 0 D.

Definition good_out {A} (o : Outcome A) : Prop :=
  match o with
  | OutOfFuel => False
  | Panic p => p = DivOverflow
  | _ => True
  end.

(** The result [r] of a computation started in [s]: well-formed and grown
    dictionary, and [Q] on success. *)
Definition good_res {A} (s : Machine) (Q : A -> Machine -> Prop)
    (r : Machine * Outcome A) : Prop :=
  wf_defs (self_definitions (fst r)) /\
  (exists E, self_definitions (fst r) = self_definitions s ++ E) /\
  match snd r with
  | Ok a => Q a (fst r)
  | Err _ => True
  | Panic p => p = DivOverflow
  | OutOfFuel => False
  end.

Ltac st_unfold :=
  cbv beta iota delta [bind ret throw panic out_of_fuel get_defs push_def
                       on_stack unwrap].

(** The range of [i32]. *)
Definition in_i32 (z : Z) : Prop := i32_min <= z <= i32_max.

(** A string with no whitespace character. *)
Fixpoint no_ws (s : string) : bool :=
  match s with
  | EmptyString => true
  | String c s' => negb (is_whitespace c) && no_ws s'
  end.

(** A string made only of whitespace characters. *)
Fixpoint all_ws (s : string) : bool :=
  match s with
  | EmptyString => true
  | String c s' => is_whitespace c && all_ws s'
  end.

(** The value a token denotes when it classifies as a number. *)
Definition number_value (defs : list Var) (tok : string) : Value :=
  match evaluate_input tok defs with IV_Number n => n | _ => 0 end.

(** [m] keeps every value of the working stack in the range of [i32]. *)
Definition keeps_range {A} (m : ST Machine A) : Prop :=
  forall st, Forall in_i32 (working st) -> Forall in_i32 (working (fst (m st))).

(** ** Lemmas on the stack operations *)

Lemma pop_unwrap_snoc (l : list Value) (a : Value) :
  pop_unwrap (l ++ [a]) = (l, Ok a).
Proof.
  unfold pop_unwrap.
  destruct (l ++ [a]) as [|x r] eqn:E.
  - destruct l; discriminate.
  - rewrite <- E, removelast_last, last_last. reflexivity.
Qed.

Lemma pop2 (s : list Value) (b a : Value) :
  s ++ [b; a] = (s ++ [b]) ++ [a].
Proof. rewrite <- app_assoc. reflexivity. Qed.

Lemma len_check_ok (n : nat) (s : list Value) :
  (n <= length s)%nat -> len_check n s = (s, Ok tt).
Proof.
  intro H. unfold len_check.
  destruct (Nat.ltb_spec (length s) n); [lia | reflexivity].
Qed.

Lemma operate_two (op : Op) (s : list Value) (b a : Value) :
  operate op (s ++ [b; a]) =
  match op with
  | Add => (s ++ [wrap32 (a + b)], Ok tt)
  | Sub => (s ++ [wrap32 (b - a)], Ok tt)
  | Mul => (s ++ [wrap32 (b * a)], Ok tt)
  | Div => if a =? 0 then (s, Err DivisionByZero)
           else if (b =? i32_min) && (a =? -1) then (s, Panic DivOverflow)
           else (s ++ [Z.quot b a], Ok tt)
  | Dup => (s ++ [b; a; a], Ok tt)
  | Drop => (s ++ [b], Ok tt)
  | Swap => (s ++ [a; b], Ok tt)
  | Over => (s ++ [b; a; b], Ok tt)
  end.
Proof.
  destruct op; unfold operate, bind;
    rewrite len_check_ok by (rewrite length_app; simpl; lia);
    rewrite pop2, pop_unwrap_snoc; try rewrite pop_unwrap_snoc;
    unfold push; rewrite <- ?app_assoc; try reflexivity.
  destruct (a =? 0); [reflexivity|].
  unfold i32_div. destruct ((b =? i32_min) && (a =? -1)); reflexivity.
Qed.

(** ** Lemmas on lists and the monad *)

Lemma firstn_app_le {A} (k : nat) (D E : list A) :
  (k <= length D)%nat -> firstn k (D ++ E) = firstn k D.
Proof.
  intro H. rewrite firstn_app.
  replace (k - length D)%nat with 0%nat by lia. simpl. apply app_nil_r.
Qed.

Lemma in_firstn {A} (k : nat) (l : list A) (x : A) :
  In x (firstn k l) -> In x l.
Proof.
  intro H. rewrite <- (firstn_skipn k l). apply in_or_app. left; exact H.
Qed.

Lemma split_at_fst_le (k : nat) (d : list Var) (m : Machine) :
  (k <= length d)%nat -> split_at_fst k d m = (m, Ok (firstn k d)).
Proof.
  intro H. unfold split_at_fst. destruct (Nat.leb_spec k (length d)); [reflexivity | lia].
Qed.

Lemma position_none {A} (p : A -> bool) (l : list A) :
  (forall x, In x l -> p x = false) -> position p l = None.
Proof.
  induction l as [|x l IH]; intro H; simpl; [reflexivity|].
  rewrite (H x (or_introl eq_refl)), IH; [reflexivity|].
  intros y Hy. apply H. right; exact Hy.
Qed.

Lemma in_take_while {A} (p : A -> bool) (l : list A) (x : A) :
  In x (take_while p l) -> p x = true /\ In x l.
Proof.
  induction l as [|y l IH]; simpl; [tauto|].
  destruct (p y) eqn:Hy; simpl; [|tauto].
  intros [<-|H]; [auto|]. destruct (IH H); auto.
Qed.

Lemma evaluate_input_variable (tok : string) (vis : list Var) (v : Var) :
  evaluate_input tok vis = IV_Variable v ->
  In v vis /\ word v = to_uppercase tok.
Proof.
  unfold evaluate_input.
  destruct (String.eqb tok ":"); [discriminate|].
  destruct (find _ (rev vis)) as [v'|] eqn:Hf.
  - intro H; injection H as <-.
    apply find_some in Hf as [Hin Heq].
    split; [apply in_rev; exact Hin | apply String.eqb_eq; exact Heq].
  - destruct (operator_of _); [discriminate|].
    destruct (parse_i32 tok); discriminate.
Qed.

(** ** Frame property of word bodies *)

Lemma body_loop_frame ec D E v :
  (definitions_index v <= length D)%nat ->
  (forall j vis, incl vis D -> framed D E (ec j (definition v) vis)) ->
  forall steps j, framed D E (body_loop ec v steps j).
Proof.
  intros Hidx Hec. induction steps as [|steps IH]; intros j w; simpl.
  - destruct (j <? length (definition v))%nat; st_unfold; simpl; auto.
  - destruct (j <? length (definition v))%nat; st_unfold; simpl; [|auto].
    rewrite !split_at_fst_le by (rewrite ?length_app; lia).
    rewrite firstn_app_le by exact Hidx.
    assert (Hincl : incl (firstn (definitions_index v) D) D)
      by (intros x; apply in_firstn).
    destruct (Hec j _ Hincl w) as [Hd Hfr]. rewrite Hfr.
    destruct (ec j (definition v) (firstn (definitions_index v) D) (mkMachine D w))
      as [m1 o1] eqn:E1.
    simpl in Hd |- *. destruct m1 as [d1 w1]. simpl in Hd; subst d1.
    destruct o1 as [j'| e | p |]; simpl; auto.
    apply IH.
Qed.

Lemma on_stack_frame {A} (D E : list Var) (f : ST (list Value) A) :
  framed D E (on_stack f).
Proof.
  intro w. unfold on_stack. simpl. destruct (f w); simpl. auto.
Qed.

Lemma bind_frame {A B} (D E : list Var) (m : ST Machine A) (k : A -> ST Machine B) :
  framed D E m -> (forall a, framed D E (k a)) -> framed D E (bind m k).
Proof.
  intros Hm Hk w. destruct (Hm w) as [Hd Hf]. unfold bind. rewrite Hf.
  destruct (m (mkMachine D w)) as [[d1 w1] o1]. simpl in Hd |- *. subst d1.
  destruct o1 as [a| | |]; simpl; auto. apply Hk.
Qed.

Lemma pure_frame {A} (D E : list Var) (o : Outcome A) :
  framed D E (fun s => (s, o)).
Proof. intro w. simpl. auto. Qed.

Lemma unwrap_frame {A} (D E : list Var) (x : option A) :
  framed D E (unwrap x).
Proof. destruct x; apply pure_frame. Qed.

Lemma evaluate_character_frame depth :
  forall i input vis D E,
    wf_defs (D ++ E) -> incl vis D -> ~ In ";"%string input ->
    framed D E (evaluate_character depth i input vis).
Proof.
  induction depth as [|depth IH]; intros i input vis D E Hwf Hvis Hsemi;
    [apply pure_frame|].
  cbn [evaluate_character].
  apply bind_frame; [apply unwrap_frame|intro tok].
  destruct (evaluate_input tok vis) as [n|op| |v|] eqn:Hclass.
  - apply bind_frame; [apply on_stack_frame|intros; apply pure_frame].
  - apply bind_frame; [apply on_stack_frame|intros; apply pure_frame].
  - rewrite position_none; [apply pure_frame|].
    intros x Hx. unfold is_semi.
    destruct (String.eqb_spec x ";"); subst; [contradiction|reflexivity].
  - apply evaluate_input_variable in Hclass as [Hin _].
    destruct (In_nth_error D v (Hvis v Hin)) as [q Hq].
    assert (HqD : (q < length D)%nat)
      by (apply nth_error_Some; rewrite Hq; discriminate).
    destruct (Hwf q v) as [Hidx Hbody]; [rewrite nth_error_app1; assumption|].
    apply bind_frame; [|intros; apply pure_frame].
    apply body_loop_frame; [lia|].
    intros j vis' Hvis'. apply IH; auto.
  - apply pure_frame.
Qed.

Lemma body_loop_fixed_eq ec D v :
  (definitions_index v <= length D)%nat ->
  (forall j vis w, incl vis D ->
     self_definitions (fst (ec j (definition v) vis (mkMachine D w))) = D) ->
  forall steps j w,
    body_loop ec v steps j (mkMachine D w)
    = body_loop_fixed ec (firstn (definitions_index v) D) (definition v) steps j
        (mkMachine D w).
Proof.
  intros Hidx Hec. induction steps as [|steps IH]; intros j w; simpl; [reflexivity|].
  destruct (j <? length (definition v))%nat; [|reflexivity].
  cbv beta delta [bind get_defs]. cbn iota.
  rewrite split_at_fst_le by exact Hidx. cbn iota. cbn [self_definitions].
  assert (Hincl : incl (firstn (definitions_index v) D) D)
    by (intros x; apply in_firstn).
  specialize (Hec j _ w Hincl).
  destruct (ec j (definition v) (firstn (definitions_index v) D) (mkMachine D w))
    as [[d1 w1] o1]; simpl in Hec; subst d1.
  destruct o1; [apply IH|reflexivity..].
Qed.

Lemma wf_defsb_from_spec (n : nat) (D : list Var) :
  wf_defsb_from n D = true ->
  forall p v, nth_error D p = Some v ->
    definitions_index v = (n + p)%nat /\ ~ In ";"%string (definition v).
Proof.
  revert n. induction D as [|x D IH]; intros n H p v Hp; [destruct p; discriminate|].
  simpl in H. apply andb_prop in H as [H H3]. apply andb_prop in H as [H1 H2].
  destruct p as [|p]; simpl in Hp.
  - injection Hp as <-. split; [apply Nat.eqb_eq in H1; lia|].
    intro Hin. apply negb_true_iff in H2.
    assert (existsb is_semi (definition x) = true)
      by (apply existsb_exists; exists ";"%string; auto).
    congruence.
  - destruct (IH (S n) H3 p v Hp) as [Hi Hs]. split; [lia|exact Hs].
Qed.

Lemma wf_defsb_spec (D : list Var) : wf_defsb D = true -> wf_defs D.
Proof. intros H p v Hp. apply (wf_defsb_from_spec 0 D H p v Hp). Qed.

Lemma find_app_none {A} (f : A -> bool) (l r : list A) :
  (forall x, In x l -> f x = false) -> find f (l ++ r) = find f r.
Proof.
  induction l as [|x l IH]; intro H; simpl; [reflexivity|].
  rewrite (H x (or_introl eq_refl)). apply IH. intros y Hy; apply H; right; exact Hy.
Qed.

Lemma evaluate_input_latest (tok : string) (vis E : list Var) (v : Var) :
  tok <> ":"%string -> word v = to_uppercase tok ->
  (forall x, In x E -> word x <> to_uppercase tok) ->
  evaluate_input tok (vis ++ v :: E) = IV_Variable v.
Proof.
  intros Htok Hv HE. unfold evaluate_input.
  destruct (String.eqb_spec tok ":"); [contradiction|].
  rewrite rev_app_distr. simpl. rewrite <- app_assoc.
  rewrite find_app_none.
  - simpl. rewrite Hv, String.eqb_refl. reflexivity.
  - intros x Hx. apply in_rev in Hx. apply String.eqb_neq. apply HE. exact Hx.
Qed.

Open Scope string_scope.
Open Scope list_scope.

(** ** C2: snapshot isolation of word bodies *)

(** C2. Invoking a word [A] (entry [p] of a dictionary [D]) once further
    entries [E] have been appended, for instance a redefinition of a word
    [B] that [A]'s body uses, behaves exactly as invoking it before [E]
    existed: the dictionary visible to [A]'s body is the fixed prefix
    [firstn (definitions_index A) D].  A word [B] appended last is the one
    a direct use of its name resolves to. *)
Theorem word_body_snapshot_isolation :
  forall depth D E p A wstk,
    wf_defs (D ++ E) -> nth_error D p = Some A ->
    run_word depth A (mkMachine (D ++ E) wstk)
    = (mkMachine (D ++ E) (working (fst (run_word depth A (mkMachine D wstk)))),
       snd (run_word depth A (mkMachine D wstk)))
    /\ run_word depth A (mkMachine D wstk)
       = run_fixed depth (firstn (definitions_index A) D) (definition A)
           (mkMachine D wstk)
    /\ (forall tok B, tok <> ":"%string -> word B = to_uppercase tok ->
          evaluate_input tok (D ++ E ++ [B]) = IV_Variable B).
Proof.
  intros depth D E p A wstk Hwf Hp.
  assert (HpD : (p < length D)%nat)
    by (apply nth_error_Some; rewrite Hp; discriminate).
  destruct (Hwf p A) as [Hidx Hbody]; [rewrite nth_error_app1; assumption|].
  assert (Hfr : forall j vis, incl vis D ->
            framed D E (evaluate_character depth j (definition A) vis))
    by (intros; apply evaluate_character_frame; auto).
  split; [|split].
  - apply (body_loop_frame _ D E A ltac:(lia) Hfr).
  - apply body_loop_fixed_eq; [lia|].
    intros j vis w Hvis. apply (Hfr j vis Hvis w).
  - intros tok B Htok HB. rewrite app_assoc.
    apply (evaluate_input_latest tok (D ++ E) [] B Htok HB). intros x [].
Qed.

Lemma word_body_snapshot_isolation_witness :
  let D := firstn 2 (definitions (fst (eval new ": foo 5 ; : bar foo ; : foo 6 ;"))) in
  let E := skipn 2 (definitions (fst (eval new ": foo 5 ; : bar foo ; : foo 6 ;"))) in
  wf_defs (D ++ E) /\ nth_error D 1 = Some (mkVar "BAR" ["foo"] 1) /\
  (run_word 3 (mkVar "BAR" ["foo"] 1) (mkMachine (D ++ E) [])
   = (mkMachine (D ++ E) (working (fst (run_word 3 (mkVar "BAR" ["foo"] 1) (mkMachine D [])))),
      snd (run_word 3 (mkVar "BAR" ["foo"] 1) (mkMachine D [])))
   /\ run_word 3 (mkVar "BAR" ["foo"] 1) (mkMachine D [])
      = run_fixed 3 (firstn 1 D) ["foo"%string] (mkMachine D [])
   /\ (forall tok B, tok <> ":"%string -> word B = to_uppercase tok ->
         evaluate_input tok (D ++ E ++ [B]) = IV_Variable B)).
Proof.
  intros D E.
  assert (Hwf : wf_defs (D ++ E)) by (apply wf_defsb_spec; vm_compute; reflexivity).
  assert (Hp : nth_error D 1 = Some (mkVar "BAR" ["foo"%string] 1))
    by (vm_compute; reflexivity).
  split; [exact Hwf|]. split; [exact Hp|].
  exact (word_body_snapshot_isolation 3 D E 1 _ [] Hwf Hp).
Defined.

(** ** Safety: the dictionary only grows and stays well formed, fuel is
    never exhausted, and the only panic is the overflow of [/]. *)

Lemma good_bind {A B} (s : Machine) (m : ST Machine A) (k : A -> ST Machine B)
    (P : A -> Machine -> Prop) (Q : B -> Machine -> Prop) :
  good_res s P (m s) ->
  (forall a s', P a s' -> wf_defs (self_definitions s') ->
     (exists E, self_definitions s' = self_definitions s ++ E) ->
     good_res s' Q (k a s')) ->
  good_res s Q (bind m k s).
Proof.
  intros [Hwf [[E HE] Ho]] Hk. unfold bind.
  destruct (m s) as [s1 [a|e|p|]]; simpl in *;
    try (unfold good_res; simpl; split; [|split]; eauto; fail).
  destruct (Hk a s1 Ho Hwf (ex_intro _ E HE)) as [Hwf2 [[E2 HE2] Ho2]].
  split; [exact Hwf2|]. split; [|exact Ho2].
  exists (E ++ E2). rewrite HE2, HE, app_assoc. reflexivity.
Qed.

Lemma good_same_defs {A} (s s' : Machine) (Q : A -> Machine -> Prop) (o : Outcome A) :
  self_definitions s' = self_definitions s ->
  wf_defs (self_definitions s) ->
  match o with Ok a => Q a s' | Err _ => True | Panic p => p = DivOverflow
             | OutOfFuel => False end ->
  good_res s Q (s', o).
Proof.
  intros Hd Hwf Ho. unfold good_res; simpl. split; [rewrite Hd; exact Hwf|].
  split; [exists []; rewrite Hd, app_nil_r; reflexivity|]. exact Ho.
Qed.

Lemma good_pure {A} (s : Machine) (Q : A -> Machine -> Prop) (o : Outcome A) :
  wf_defs (self_definitions s) ->
  match o with Ok a => Q a s | Err _ => True | Panic p => p = DivOverflow
             | OutOfFuel => False end ->
  good_res s Q (s, o).
Proof. apply good_same_defs. reflexivity. Qed.

Lemma operate_good (op : Op) (w : list Value) : good_out (snd (operate op w)).
Proof.
  destruct (rev w) as [|a [|b r]] eqn:Hw.
  - apply (f_equal (@rev Value)) in Hw. rewrite rev_involutive in Hw. subst w.
    destruct op; reflexivity.
  - apply (f_equal (@rev Value)) in Hw. rewrite rev_involutive in Hw. subst w.
    destruct op; reflexivity.
  - apply (f_equal (@rev Value)) in Hw. rewrite rev_involutive in Hw. subst w.
    simpl. rewrite <- app_assoc. simpl. rewrite operate_two.
    destruct op; simpl; auto.
    destruct (a =? 0)%Z; simpl; auto.
    destruct ((b =? i32_min) && (a =? -1))%Z; simpl; auto.
Qed.

Lemma on_stack_operate_good (op : Op) (i : nat) (s : Machine) :
  wf_defs (self_definitions s) ->
  good_res s (fun j _ => (i <= j)%nat) ((on_stack (operate op) ;;; ret i) s).
Proof.
  intro Hwf. pose proof (operate_good op (working s)) as Hg.
  unfold bind, on_stack. destruct s as [d w]. simpl in *.
  destruct (operate op w) as [w' o]. simpl in Hg.
  destruct o; apply good_same_defs; simpl; auto.
Qed.

Lemma length_take_while {A} (p : A -> bool) (l : list A) :
  (length (take_while p l) <= length l)%nat.
Proof.
  induction l as [|x l IH]; simpl; [lia|]. destruct (p x); simpl; lia.
Qed.

Lemma wf_push (d : list Var) (name : string) (body : list string) :
  wf_defs d -> (forall x, In x body -> is_semi x = false) ->
  wf_defs (d ++ [mkVar name body (length d)]).
Proof.
  intros Hwf Hb p v Hp.
  destruct (Nat.lt_ge_cases p (length d)) as [Hlt|Hge].
  - rewrite nth_error_app1 in Hp by exact Hlt. exact (Hwf p v Hp).
  - rewrite nth_error_app2 in Hp by exact Hge.
    destruct (p - length d)%nat as [|n] eqn:Hn; simpl in Hp.
    + injection Hp as <-. simpl. split; [lia|].
      intro Hin. specialize (Hb _ Hin). discriminate.
    + destruct n; discriminate.
Qed.

Lemma body_loop_safe ec v :
  (forall j vis s, wf_defs (self_definitions s) ->
     vis = firstn (definitions_index v) (self_definitions s) ->
     (j < length (definition v))%nat ->
     good_res s (fun j' _ => (j <= j')%nat) (ec j (definition v) vis s)) ->
  forall steps j s, wf_defs (self_definitions s) ->
    (definitions_index v <= length (self_definitions s))%nat ->
    (length (definition v) <= j + steps)%nat ->
    good_res s (fun _ _ => True) (body_loop ec v steps j s).
Proof.
  intros Hec. induction steps as [|steps IH]; intros j s Hwf Hidx Hlen; simpl.
  - destruct (Nat.ltb_spec j (length (definition v))); [lia|].
    apply good_pure; auto.
  - destruct (Nat.ltb_spec j (length (definition v))); [|apply good_pure; auto].
    unfold bind at 1. unfold get_defs. cbn iota.
    unfold bind at 1. rewrite split_at_fst_le by exact Hidx. cbn iota.
    apply (good_bind s _ _ (fun j' _ => (j <= j')%nat)).
    + apply Hec; auto.
    + intros j' s' Hj' Hwf' [E HE].
      apply IH; auto.
      * rewrite HE, length_app. lia.
      * lia.
Qed.

Lemma evaluate_character_safe depth :
  forall i input vis k s,
    wf_defs (self_definitions s) ->
    vis = firstn k (self_definitions s) ->
    (length vis < depth)%nat ->
    (i < length input)%nat ->
    good_res s (fun j _ => (i <= j)%nat) (evaluate_character depth i input vis s).
Proof.
  induction depth as [|depth IH]; intros i input vis k s Hwf Hvis Hdepth Hi; [lia|].
  cbn [evaluate_character].
  destruct (nth_error input i) as [tok|] eqn:Htok;
    [|apply nth_error_None in Htok; lia].
  unfold bind at 1, unwrap, ret at 1. cbn iota.
  destruct (evaluate_input tok vis) as [n|op| |v|] eqn:Hclass.
  - unfold bind, on_stack, push. destruct s; apply good_same_defs; simpl; auto.
  - apply on_stack_operate_good; exact Hwf.
  - set (body := take_while (fun x => negb (is_semi x)) (skipn (i + 2) input)).
    destruct (match position is_semi input with None => true | Some _ => false end
              || (length body <? 1)%nat) eqn:Hchk; [apply good_pure; auto|].
    apply orb_false_iff in Hchk as [_ Hne]. apply Nat.ltb_ge in Hne.
    assert (Hi1 : (i + 1 < length input)%nat).
    { pose proof (length_take_while (fun x => negb (is_semi x)) (skipn (i + 2) input)).
      rewrite length_skipn in H. fold body in H. lia. }
    destruct (nth_error input (i + 1)) as [name|] eqn:Hname;
      [|apply nth_error_None in Hname; lia].
    unfold bind at 1, unwrap, ret at 1. cbn iota.
    destruct (starts_with_digit name); [apply good_pure; auto|].
    unfold bind, get_defs, push_def, ret. destruct s as [d w]. simpl in *.
    split; [|split].
    + apply wf_push; [exact Hwf|].
      intros x Hx. apply in_take_while in Hx as [Hx _]. apply negb_true_iff in Hx.
      exact Hx.
    + eexists; reflexivity.
    + simpl. lia.
  - apply evaluate_input_variable in Hclass as [Hin _].
    rewrite Hvis in Hin. apply In_nth_error in Hin as [q Hq].
    assert (Hqv : (q < length vis)%nat)
      by (apply nth_error_Some; rewrite Hvis, Hq; discriminate).
    rewrite Hvis in Hqv.
    rewrite nth_error_firstn in Hq.
    destruct (q <? k)%nat; [|discriminate].
    destruct (Hwf q v Hq) as [Hidx _].
    apply (good_bind s _ _ (fun _ _ => True)); [|intros; apply good_pure; auto].
    apply body_loop_safe; auto.
    + intros j vis' s' Hwf' Hvis' Hj.
      apply (IH j _ vis' (definitions_index v) s'); auto.
      rewrite Hvis', length_firstn. subst vis. rewrite Hidx. lia.
    + rewrite Hidx. rewrite length_firstn in Hqv. lia.
  - apply good_pure; auto.
Qed.

Lemma top_loop_safe :
  forall steps i input s,
    wf_defs (self_definitions s) ->
    (length input <= i + steps)%nat ->
    good_res s (fun _ _ => True) (top_loop steps i input s).
Proof.
  induction steps as [|steps IH]; intros i input s Hwf Hlen; cbn [top_loop].
  - destruct (Nat.ltb_spec i (length input)); [lia|]. apply good_pure; auto.
  - destruct (Nat.ltb_spec i (length input)); [|apply good_pure; auto].
    unfold bind at 1, get_defs. cbn iota.
    apply (good_bind s _ _ (fun j _ => (i <= j)%nat)).
    + apply (evaluate_character_safe _ i input _ (length (self_definitions s)));
        auto; rewrite firstn_all; auto.
    + intros j s' Hj Hwf' _. apply IH; auto. lia.
Qed.


Lemma eval_safe (st : Forth) (text : string) :
  wf_defs (definitions st) ->
  wf_defs (definitions (fst (eval st text))) /\
  (exists E, definitions (fst (eval st text)) = definitions st ++ E) /\
  good_out (snd (eval st text)).
Proof.
  intro Hwf. unfold eval.
  destruct (top_loop_safe (length (split_whitespace text)) 0 (split_whitespace text)
              (mkMachine (definitions st) []) Hwf ltac:(lia)) as [Hw [HE Ho]].
  destruct (top_loop _ _ _ _) as [m o]. simpl in *.
  destruct o; simpl; auto.
Qed.

Lemma eval_failure_stack (st : Forth) (text : string) :
  snd (eval st text) <> Ok tt -> stack (fst (eval st text)) = stack st.
Proof.
  unfold eval. destruct (top_loop _ _ _ _) as [m o].
  destruct o as [[]| | |]; simpl; auto. intro H; exfalso; apply H; reflexivity.
Qed.

Lemma reachable_wf (st : Forth) : reachable st -> wf_defs (definitions st).
Proof.
  induction 1 as [|st text _ IH].
  - intros p v Hp. destruct p; discriminate.
  - exact (proj1 (eval_safe st text IH)).
Qed.

(** ** C1: what a failed [eval] leaves behind *)

(** C1 (amended). When [eval] fails, the instance's stack is the one it had
    before the call, while its dictionary is the old dictionary extended by
    the definitions the call had already appended before the error. *)
Theorem eval_error_keeps_stack :
  forall st text e,
    reachable st -> snd (eval st text) = Err e ->
    stack (fst (eval st text)) = stack st /\
    exists E, definitions (fst (eval st text)) = definitions st ++ E.
Proof.
  intros st text e Hr He. split.
  - apply eval_failure_stack. rewrite He. discriminate.
  - exact (proj1 (proj2 (eval_safe st text (reachable_wf st Hr)))).
Qed.

Lemma eval_error_keeps_stack_witness :
  reachable new /\ snd (eval new ": foo 1 ; bar") = Err UnknownWord /\
  (stack (fst (eval new ": foo 1 ; bar")) = stack new /\
   exists E, definitions (fst (eval new ": foo 1 ; bar")) = definitions new ++ E).
Proof.
  assert (He : snd (eval new ": foo 1 ; bar") = Err UnknownWord) by reflexivity.
  split; [constructor|]. split; [exact He|].
  exact (eval_error_keeps_stack new _ _ reachable_new He).
Defined.

(** C1 fails as stated: the definition of [foo] is committed to the
    dictionary although the call fails on the later token [bar]. *)
Lemma eval_error_commits_definition :
  eval new ": foo 1 ; bar"
  = (mkForth [] [mkVar "FOO" ["1"] 0], Err UnknownWord) /\
  definitions (fst (eval new ": foo 1 ; bar")) <> definitions new.
Proof. split; [reflexivity | discriminate]. Qed.

(** ** C9: the prior stack does not influence [eval] *)

(** C9 (amended). Two instances with the same dictionary get the same
    outcome and the same dictionary from [eval] of the same text; on success
    both stacks become the same working stack, on failure each instance keeps
    its own previous stack. *)
Theorem eval_ignores_prior_stack :
  forall st1 st2 text,
    definitions st1 = definitions st2 ->
    snd (eval st1 text) = snd (eval st2 text) /\
    definitions (fst (eval st1 text)) = definitions (fst (eval st2 text)) /\
    (snd (eval st1 text) = Ok tt ->
       stack (fst (eval st1 text)) = stack (fst (eval st2 text))) /\
    (snd (eval st1 text) <> Ok tt ->
       stack (fst (eval st1 text)) = stack st1 /\
       stack (fst (eval st2 text)) = stack st2).
Proof.
  intros [s1 d1] [s2 d2] text Hd. simpl in Hd. subst d2.
  unfold eval. simpl.
  destruct (top_loop _ _ _ _) as [m o].
  destruct o as [[]| | |]; simpl; repeat split; intros; try reflexivity;
    try discriminate; exfalso; auto.
Qed.

Lemma eval_ignores_prior_stack_witness :
  definitions new = definitions (fst (eval new "1")) /\
  snd (eval new "1 2 +") = snd (eval (fst (eval new "1")) "1 2 +") /\
  definitions (fst (eval new "1 2 +"))
  = definitions (fst (eval (fst (eval new "1")) "1 2 +")) /\
  (snd (eval new "1 2 +") = Ok tt ->
     stack (fst (eval new "1 2 +")) = stack (fst (eval (fst (eval new "1")) "1 2 +"))) /\
  (snd (eval new "1 2 +") <> Ok tt ->
     stack (fst (eval new "1 2 +")) = stack new /\
     stack (fst (eval (fst (eval new "1")) "1 2 +")) = stack (fst (eval new "1"))).
Proof.
  assert (Hd : definitions new = definitions (fst (eval new "1"))) by reflexivity.
  split; [exact Hd|].
  exact (eval_ignores_prior_stack new (fst (eval new "1")) "1 2 +" Hd).
Defined.

(** C9 fails as stated: two reachable instances with the same (empty)
    dictionary, stacks [[]] and [[1]], keep different stacks after the same
    failing call. *)
Lemma eval_failure_keeps_distinct_stacks :
  reachable (fst (eval new "1")) /\
  definitions new = definitions (fst (eval new "1")) /\
  snd (eval new "foo") = snd (eval (fst (eval new "1")) "foo") /\
  stack (fst (eval new "foo")) = [] /\
  stack (fst (eval (fst (eval new "1")) "foo")) = [1%Z].
Proof.
  split; [apply reachable_eval, reachable_new|].
  repeat split; reflexivity.
Qed.

(** ** C10: totality *)

(** C10 (amended). On every reachable instance and every text, [eval]
    terminates (its depth and step bounds are never exhausted) and never
    panics on an [unwrap] or on [split_at]; the one panic it can raise is
    the overflow of [/] ([i32::MIN / -1]). *)
Theorem eval_total :
  forall st text,
    reachable st ->
    snd (eval st text) <> OutOfFuel /\
    (forall p, snd (eval st text) = Panic p -> p = DivOverflow).
Proof.
  intros st text Hr.
  pose proof (proj2 (proj2 (eval_safe st text (reachable_wf st Hr)))) as Hg.
  destruct (snd (eval st text)) as [| |p|]; simpl in Hg; split; try discriminate;
    try (intros ? Hp; discriminate); try contradiction.
  intros p' Hp. injection Hp as <-. exact Hg.
Qed.

Lemma eval_total_witness :
  reachable new /\
  snd (eval new ": sq dup * ; 3 sq") <> OutOfFuel /\
  (forall p, snd (eval new ": sq dup * ; 3 sq") = Panic p -> p = DivOverflow).
Proof.
  split; [exact reachable_new|].
  exact (eval_total new _ reachable_new).
Defined.

(** C10 fails as stated: [i32::MIN / -1] panics. *)
Lemma eval_div_overflow_panics :
  eval new "-2147483648 -1 /" = (new, Panic DivOverflow).
Proof. reflexivity. Qed.

(** ** Classification *)

Lemma find_none_all {A} (f : A -> bool) (l : list A) :
  (forall x, In x l -> f x = false) -> find f l = None.
Proof.
  intro H. rewrite <- (app_nil_r l), find_app_none by exact H. reflexivity.
Qed.

Lemma evaluate_input_no_user (tok : string) (D : list Var) :
  tok <> ":" -> (forall x, In x D -> word x <> to_uppercase tok) ->
  evaluate_input tok D = builtin_or_number tok.
Proof.
  intros Htok HD. unfold evaluate_input.
  destruct (String.eqb_spec tok ":"); [contradiction|].
  rewrite find_none_all; [reflexivity|].
  intros x Hx. apply in_rev in Hx. apply String.eqb_neq, HD, Hx.
Qed.

Lemma run_word_fixed (depth : nat) (D : list Var) (p : nat) (A : Var) (w : list Value) :
  wf_defs D -> nth_error D p = Some A ->
  run_word depth A (mkMachine D w)
  = run_fixed depth (firstn (definitions_index A) D) (definition A) (mkMachine D w).
Proof.
  intros Hwf Hp.
  assert (HpD : (p < length D)%nat) by (apply nth_error_Some; rewrite Hp; discriminate).
  destruct (Hwf p A Hp) as [Hidx Hbody].
  apply body_loop_fixed_eq; [lia|].
  intros j vis w' Hvis.
  assert (Hwf' : wf_defs (D ++ [])) by (rewrite app_nil_r; exact Hwf).
  exact (proj1 (evaluate_character_frame depth j (definition A) vis D [] Hwf' Hvis Hbody w')).
Qed.

Lemma firstn_latest {A} (D : list A) (p q : nat) (v : A) :
  (q < p)%nat -> nth_error D q = Some v ->
  firstn p D = firstn q D ++ v :: firstn (p - S q) (skipn (S q) D).
Proof.
  revert D p. induction q as [|q IH]; intros [|x D] [|p] Hqp Hq; try lia; try discriminate.
  - injection Hq as ->. simpl. rewrite Nat.sub_0_r. reflexivity.
  - simpl in Hq |- *. rewrite (IH D p ltac:(lia) Hq). reflexivity.
Qed.

(** ** C3: validation of definitions *)

(** C3 does not hold: with a [;] earlier in the input (here the terminator
    of a first definition) a later [: bar 2] without terminator is accepted,
    since the terminator test searches the whole token list. *)
Theorem unterminated_definition_accepted :
  eval new ": foo 1 ; : bar 2"
  = (mkForth [] [mkVar "FOO" ["1"] 0; mkVar "BAR" ["2"] 1], Ok tt).
Proof. reflexivity. Qed.

(** ** C4: a body never binds to its own word *)

(** C4 (amended). Let [A] be entry [p] of a well-formed dictionary [D].
    Every token of [A]'s body that resolves to a user word resolves to an
    entry at a position below [p], never to [A]; a token naming [A] itself
    resolves to the latest earlier entry with that name when there is one
    (the entry at [q < p] with no entry of that name between [q] and [p]),
    and, when no earlier entry has that name, to what the token means
    without user words (a built-in operator, a number or [IV_Void], i.e.
    UnknownWord); and running [A] runs its body against exactly the prefix
    [firstn (definitions_index A) D]. *)
Theorem body_never_binds_itself :
  forall D p A tok depth w,
    wf_defs D -> nth_error D p = Some A ->
    (forall v, evaluate_input tok (firstn (definitions_index A) D) = IV_Variable v ->
       exists q, (q < p)%nat /\ nth_error D q = Some v /\ v <> A) /\
    (tok <> ":" -> to_uppercase tok = word A ->
       (forall q v, (q < p)%nat -> nth_error D q = Some v -> word v <> word A) ->
       evaluate_input tok (firstn (definitions_index A) D) = builtin_or_number tok) /\
    (tok <> ":" -> to_uppercase tok = word A ->
       forall q v, (q < p)%nat -> nth_error D q = Some v -> word v = word A ->
       (forall q' v', (q < q' < p)%nat -> nth_error D q' = Some v' -> word v' <> word A) ->
       evaluate_input tok (firstn (definitions_index A) D) = IV_Variable v) /\
    run_word depth A (mkMachine D w)
    = run_fixed depth (firstn (definitions_index A) D) (definition A) (mkMachine D w).
Proof.
  intros D p A tok depth w Hwf Hp.
  destruct (Hwf p A Hp) as [HidxA _]. rewrite HidxA.
  split; [|split; [|split]].
  - intros v Hv. apply evaluate_input_variable in Hv as [Hin _].
    apply In_nth_error in Hin as [q Hq].
    rewrite nth_error_firstn in Hq.
    destruct (Nat.ltb_spec q p); [|discriminate].
    exists q. repeat split; auto.
    intros ->. destruct (Hwf q A Hq). lia.
  - intros Htok Hname Hearlier. apply evaluate_input_no_user; [exact Htok|].
    intros x Hx. apply In_nth_error in Hx as [q Hq].
    rewrite nth_error_firstn in Hq.
    destruct (Nat.ltb_spec q p); [|discriminate].
    rewrite Hname. exact (Hearlier q x H Hq).
  - intros Htok Hname q v Hq Hqv Hv Hbetween.
    rewrite (firstn_latest D p q v Hq Hqv).
    apply evaluate_input_latest; [exact Htok|congruence|].
    intros x Hx. apply In_nth_error in Hx as [k Hk].
    rewrite nth_error_firstn in Hk.
    destruct (Nat.ltb_spec k (p - S q)); [|discriminate].
    rewrite nth_error_skipn in Hk. rewrite Hname.
    apply (Hbetween (S q + k)%nat x); [lia|exact Hk].
  - rewrite <- HidxA. exact (run_word_fixed depth D p A w Hwf Hp).
Qed.

Lemma body_never_binds_itself_witness :
  let D := definitions (fst (eval new ": foo 1 ; : foo foo 1 + ;")) in
  let D' := definitions (fst (eval new ": swap swap ;")) in
  (wf_defs D /\ nth_error D 1 = Some (mkVar "FOO" ["foo"; "1"; "+"] 1) /\
   evaluate_input "foo" (firstn 1 D) = IV_Variable (mkVar "FOO" ["1"] 0) /\
   run_word 2 (mkVar "FOO" ["foo"; "1"; "+"] 1) (mkMachine D [])
   = run_fixed 2 (firstn 1 D) ["foo"; "1"; "+"] (mkMachine D [])) /\
  (wf_defs D' /\ nth_error D' 0 = Some (mkVar "SWAP" ["swap"] 0) /\
   evaluate_input "swap" (firstn 0 D') = builtin_or_number "swap").
Proof.
  intros D D'.
  assert (Hwf : wf_defs D) by (apply wf_defsb_spec; vm_compute; reflexivity).
  assert (Hp : nth_error D 1 = Some (mkVar "FOO" ["foo"; "1"; "+"] 1))
    by (vm_compute; reflexivity).
  assert (Hwf' : wf_defs D') by (apply wf_defsb_spec; vm_compute; reflexivity).
  assert (Hp' : nth_error D' 0 = Some (mkVar "SWAP" ["swap"] 0))
    by (vm_compute; reflexivity).
  destruct (body_never_binds_itself D 1 _ "foo" 2 [] Hwf Hp) as [_ [_ [Hlatest Hrun]]].
  destruct (body_never_binds_itself D' 0 _ "swap" 2 [] Hwf' Hp') as [_ [Hnone _]].
  split; (split; [assumption|split; [assumption|]]).
  - split; [|exact Hrun].
    apply (Hlatest ltac:(discriminate) eq_refl 0%nat); [lia|vm_compute; reflexivity|reflexivity|].
    intros q' v' Hq' _. lia.
  - apply Hnone; [discriminate|reflexivity|].
    intros q v Hq _. lia.
Defined.

(** C4 fails as stated: the body of [: swap swap ;] resolves [swap] to the
    built-in operator, neither UnknownWord nor an earlier definition. *)
Lemma self_reference_resolves_to_builtin :
  evaluate_input "swap" (firstn 0 (definitions (fst (eval new ": swap swap ;"))))
  = IV_Operator Swap /\
  eval new ": swap swap ; 1 2 swap"
  = (mkForth [2; 1]%Z [mkVar "SWAP" ["swap"] 0], Ok tt).
Proof. split; reflexivity. Qed.

(** ** C5: division by zero *)

(** C5 (amended). [/] on a stack whose top is [0] fails with DivisionByZero
    after popping both operands, so the working stack loses its top two
    values; since a failed [eval] does not commit its working stack, the
    instance's stack is then the one it had before the call. *)
Theorem div_zero_pops_operands :
  forall s b,
    operate Div (s ++ [b; 0%Z]) = (s, Err DivisionByZero) /\
    (forall st text, snd (eval st text) = Err DivisionByZero ->
       stack (fst (eval st text)) = stack st).
Proof.
  intros s b. split.
  - rewrite operate_two. reflexivity.
  - intros st text H. apply eval_failure_stack. rewrite H. discriminate.
Qed.

Lemma div_zero_pops_operands_witness :
  operate Div ([7%Z] ++ [1%Z; 0%Z]) = ([7%Z], Err DivisionByZero) /\
  (snd (eval (fst (eval new "5")) "1 0 /") = Err DivisionByZero ->
   stack (fst (eval (fst (eval new "5")) "1 0 /")) = stack (fst (eval new "5"))).
Proof.
  destruct (div_zero_pops_operands [7%Z] 1%Z) as [H1 H2].
  split; [exact H1|]. exact (H2 (fst (eval new "5")) "1 0 /").
Defined.

(** C5 fails as stated: the failed [/] leaves the working stack popped. *)
Lemma div_zero_leaves_stack_popped :
  operate Div [1%Z; 0%Z] = ([], Err DivisionByZero) /\ ([] : list Value) <> [1%Z; 0%Z].
Proof. split; [reflexivity | discriminate]. Qed.

(** ** C6: stack underflow *)

(** C6. Each operator applied to a stack shallower than its required depth
    (2 for [+ - * / SWAP OVER], 1 for [DUP DROP]) fails with StackUnderflow
    and leaves the stack unchanged. *)
Theorem operate_underflow_unchanged :
  forall op s, (length s < required_depth op)%nat ->
    operate op s = (s, Err StackUnderflow).
Proof.
  intros op s H.
  destruct op; unfold operate, bind, len_check; simpl in H;
    rewrite (proj2 (Nat.ltb_lt _ _) H); reflexivity.
Qed.

Lemma operate_underflow_unchanged_witness :
  (length [5%Z] < required_depth Over)%nat /\
  operate Over [5%Z] = ([5%Z], Err StackUnderflow).
Proof.
  assert (H : (length [5%Z] < required_depth Over)%nat) by (simpl; lia).
  split; [exact H | exact (operate_underflow_unchanged Over [5%Z] H)].
Defined.

(** ** C7: operand order of the binary operators *)

(** C7 (amended). With [a] on top and [b] below it, [+], [-] and [*] push
    the [i32] (wrapping) values of [a + b], [b - a] and [b * a]; [/] with
    [a <> 0] pushes the truncated quotient [b / a] except for
    [i32::MIN / -1], which panics; and [eval "3 4 -"] yields [[-1]]. *)
Theorem binary_operand_order :
  forall s a b,
    operate Add (s ++ [b; a]) = (s ++ [wrap32 (a + b)], Ok tt) /\
    operate Sub (s ++ [b; a]) = (s ++ [wrap32 (b - a)], Ok tt) /\
    operate Mul (s ++ [b; a]) = (s ++ [wrap32 (b * a)], Ok tt) /\
    (a <> 0%Z -> ~ (b = i32_min /\ a = (-1)%Z) ->
       operate Div (s ++ [b; a]) = (s ++ [Z.quot b a], Ok tt)) /\
    operate Div (s ++ [i32_min; (-1)%Z]) = (s, Panic DivOverflow) /\
    eval new "3 4 -" = (mkForth [(-1)%Z] [], Ok tt).
Proof.
  intros s a b.
  rewrite !operate_two. repeat split; try reflexivity.
  intros Ha Hmin.
  destruct (Z.eqb_spec a 0); [contradiction|].
  destruct (Z.eqb_spec b i32_min); destruct (Z.eqb_spec a (-1)); simpl;
    try reflexivity. tauto.
Qed.

Lemma binary_operand_order_witness :
  operate Div ([] ++ [7%Z; 2%Z]) = ([] ++ [3%Z], Ok tt).
Proof.
  destruct (binary_operand_order [] 2%Z 7%Z) as [_ [_ [_ [H _]]]].
  apply H; [discriminate | intros [_ Ha]; discriminate].
Defined.

(** C7 fails as stated: [i32::MIN / -1] does not push a quotient. *)
Lemma div_min_by_minus_one_panics :
  operate Div [(-2147483648)%Z; (-1)%Z] = ([], Panic DivOverflow).
Proof. reflexivity. Qed.

(** ** C8: user words before built-ins before numbers *)

(** C8. For a token other than [:], the latest visible user word of the
    token's (uppercased) name is what it denotes, whatever built-in or
    number it also spells; only when no visible user word has that name is
    the token read as a built-in operator, and failing that as a number. *)
Theorem user_words_shadow_builtins :
  forall tok D,
    tok <> ":" ->
    (forall v E, word v = to_uppercase tok ->
       (forall x, In x E -> word x <> to_uppercase tok) ->
       evaluate_input tok (D ++ v :: E) = IV_Variable v) /\
    ((forall x, In x D -> word x <> to_uppercase tok) ->
       evaluate_input tok D = builtin_or_number tok).
Proof.
  intros tok D Htok. split.
  - intros v E Hv HE. apply evaluate_input_latest; assumption.
  - apply evaluate_input_no_user. exact Htok.
Qed.

Lemma user_words_shadow_builtins_witness :
  evaluate_input "swap" ([] ++ [mkVar "SWAP" ["dup"] 0])
  = IV_Variable (mkVar "SWAP" ["dup"] 0) /\
  builtin_or_number "swap" = IV_Operator Swap /\
  eval new ": swap dup ; 1 swap" = (mkForth [1%Z; 1%Z] [mkVar "SWAP" ["dup"] 0], Ok tt).
Proof.
  assert (Htok : "swap" <> ":") by discriminate.
  destruct (user_words_shadow_builtins "swap" [] Htok) as [H1 _].
  split; [|split; reflexivity].
  apply H1; [reflexivity | intros x []].
Defined.

(** * Further properties of the code *)

Open Scope Z_scope.

Lemma pop_unwrap_single_push (s : list Value) (a : Value) (op : Op) :
  (op = Dup \/ op = Drop) ->
  operate op (s ++ [a])
  = if match op with Dup => true | _ => false end
    then (s ++ [a; a], Ok tt) else (s, Ok tt).
Proof.
  intros [-> | ->]; unfold operate, bind;
    rewrite len_check_ok by (rewrite length_app; simpl; lia);
    rewrite pop_unwrap_snoc; unfold push, ret; rewrite <- ?app_assoc; reflexivity.
Qed.

(** The stack words: with [a] on top and [b] below it, [DUP] pushes a copy
    of [a], [DROP] removes [a], [SWAP] exchanges [a] and [b], and [OVER]
    pushes a copy of [b]; none of them fails once the stack is deep
    enough. *)
Theorem stack_word_effects :
  forall (s : list Value) (a b : Value),
    operate Dup (s ++ [a]) = (s ++ [a; a], Ok tt) /\
    operate Drop (s ++ [a]) = (s, Ok tt) /\
    operate Swap (s ++ [b; a]) = (s ++ [a; b], Ok tt) /\
    operate Over (s ++ [b; a]) = (s ++ [b; a; b], Ok tt).
Proof.
  intros s a b. split; [|split].
  - exact (pop_unwrap_single_push s a Dup (or_introl eq_refl)).
  - exact (pop_unwrap_single_push s a Drop (or_intror eq_refl)).
  - rewrite !operate_two. split; reflexivity.
Qed.

Lemma wrap32_in_range (z : Z) : in_i32 (wrap32 z).
Proof.
  unfold in_i32, wrap32, i32_min, i32_max.
  pose proof (Z.mod_pos_bound (z + 2 ^ 31) (2 ^ 32) ltac:(lia)). lia.
Qed.

Lemma wrap32_id (z : Z) : in_i32 z -> wrap32 z = z.
Proof.
  unfold in_i32, wrap32, i32_min, i32_max. intro H.
  rewrite Z.mod_small by lia. lia.
Qed.

(** Wrapping is invisible when there is no overflow: if the exact result
    of [+], [-] or [*] fits in [i32], it is what is pushed. *)
Theorem arith_exact_without_overflow :
  forall (s : list Value) (a b : Value),
    (in_i32 (a + b) -> operate Add (s ++ [b; a]) = (s ++ [a + b], Ok tt)) /\
    (in_i32 (b - a) -> operate Sub (s ++ [b; a]) = (s ++ [b - a], Ok tt)) /\
    (in_i32 (b * a) -> operate Mul (s ++ [b; a]) = (s ++ [b * a], Ok tt)).
Proof.
  intros s a b. rewrite !operate_two.
  repeat split; intro H; rewrite wrap32_id by exact H; reflexivity.
Qed.

Lemma arith_exact_without_overflow_witness :
  in_i32 (7 * 6) /\ operate Mul ([] ++ [6; 7]) = ([] ++ [7 * 6], Ok tt).
Proof.
  assert (H : in_i32 (7 * 6)) by (unfold in_i32, i32_min, i32_max; lia).
  split; [exact H|].
  exact (proj2 (proj2 (arith_exact_without_overflow [] 7 6)) H).
Defined.

Lemma quot_in_range (b a : Z) :
  in_i32 b -> a <> 0 -> ~ (b = i32_min /\ a = -1) -> in_i32 (Z.quot b a).
Proof.
  unfold in_i32, i32_min, i32_max. intros Hb Ha Hmin.
  destruct (Z.eq_dec a 1) as [->|H1]; [rewrite Z.quot_1_r; lia|].
  destruct (Z.eq_dec a (-1)) as [->|H2].
  - change (-1) with (Z.opp 1). rewrite Z.quot_opp_r, Z.quot_1_r by lia.
    assert (b <> - 2 ^ 31) by (intro; apply Hmin; split; [assumption|reflexivity]).
    lia.
  - destruct (Z.eq_dec b 0) as [->|Hb0]; [rewrite Z.quot_0_l by exact Ha; lia|].
    assert (Habs : Z.abs (Z.quot b a) = Z.quot (Z.abs b) (Z.abs a))
      by (symmetry; apply Z.quot_abs; exact Ha).
    assert (Hlt : Z.quot (Z.abs b) (Z.abs a) < Z.abs b)
      by (apply Z.quot_lt; lia).
    rewrite <- Habs in Hlt.
    destruct (Z.abs_spec (Z.quot b a)) as [[? E]|[? E]];
      destruct (Z.abs_spec b) as [[? E']|[? E']]; lia.
Qed.

Lemma operate_in_range (op : Op) (s : list Value) :
  Forall in_i32 s -> Forall in_i32 (fst (operate op s)).
Proof.
  intro Hs.
  destruct (rev s) as [|a [|b r]] eqn:Hw;
    apply (f_equal (@rev Value)) in Hw; rewrite rev_involutive in Hw; subst s.
  - destruct op; exact Hs.
  - destruct op; simpl; auto; inversion Hs; auto.
  - simpl in Hs |- *. rewrite <- app_assoc in Hs |- *. simpl in Hs |- *.
    rewrite operate_two.
    apply Forall_app in Hs as [Hr Hba]. inversion Hba as [|? ? Hb Ha']; subst.
    inversion Ha' as [|? ? Ha _]; subst.
    destruct op; simpl;
      try (apply Forall_app; split; auto using wrap32_in_range;
           repeat constructor; auto using wrap32_in_range; fail).
    destruct (Z.eqb_spec a 0); [exact Hr|].
    destruct (Z.eqb_spec b i32_min); destruct (Z.eqb_spec a (-1)); simpl; auto;
      apply Forall_app; split; auto; constructor; auto;
      apply quot_in_range; auto; tauto.
Qed.

Lemma keeps_range_bind {A B} (m : ST Machine A) (k : A -> ST Machine B) :
  keeps_range m -> (forall a, keeps_range (k a)) -> keeps_range (bind m k).
Proof.
  intros Hm Hk st Hst. unfold bind. specialize (Hm st Hst).
  destruct (m st) as [st1 [a| | |]]; simpl in *; auto. apply Hk, Hm.
Qed.

Lemma keeps_range_pure {A} (o : Outcome A) : keeps_range (fun st => (st, o)).
Proof. intros st H. exact H. Qed.

Lemma keeps_range_body_loop ec v :
  (forall j vis, keeps_range (ec j (definition v) vis)) ->
  forall steps j, keeps_range (body_loop ec v steps j).
Proof.
  intros Hec. induction steps as [|steps IH]; intros j; simpl.
  - destruct (j <? length (definition v))%nat; apply keeps_range_pure.
  - destruct (j <? length (definition v))%nat; [|apply keeps_range_pure].
    apply keeps_range_bind; [intros st H; exact H|intro d].
    apply keeps_range_bind; [unfold split_at_fst; destruct (_ <=? _)%nat;
                             intros st H; exact H|intro vis].
    apply keeps_range_bind; [apply Hec|intro j'; apply IH].
Qed.

Lemma parse_i32_in_range (s : string) (n : Z) : parse_i32 s = Some n -> in_i32 n.
Proof.
  unfold parse_i32, in_i32. cbv zeta.
  match goal with |- match ?r with _ => _ end = _ -> _ => destruct r as [z|] end;
    [|discriminate].
  destruct (i32_min <=? z) eqn:Hlo; destruct (z <=? i32_max) eqn:Hhi; simpl;
    intro Hs; try discriminate; injection Hs as <-.
  apply Z.leb_le in Hlo. apply Z.leb_le in Hhi. split; assumption.
Qed.

Lemma evaluate_input_number_in_range (tok : string) (vis : list Var) (n : Z) :
  evaluate_input tok vis = IV_Number n -> in_i32 n.
Proof.
  unfold evaluate_input.
  destruct (String.eqb tok ":"); [discriminate|].
  destruct (find _ _); [discriminate|].
  destruct (operator_of _); [discriminate|].
  destruct (parse_i32 tok) eqn:Hp; [|discriminate].
  intro H; injection H as <-. exact (parse_i32_in_range _ _ Hp).
Qed.

Ltac keeps_same := intros ? ?Hst; assumption.

Lemma keeps_range_evaluate_character depth :
  forall i input vis, keeps_range (evaluate_character depth i input vis).
Proof.
  induction depth as [|depth IH]; intros i input vis; [apply keeps_range_pure|].
  cbn [evaluate_character].
  apply keeps_range_bind; [destruct (nth_error input i); keeps_same|intro tok].
  destruct (evaluate_input tok vis) as [n|op| |v|] eqn:Hclass.
  - apply keeps_range_bind; [|intros; keeps_same].
    intros [d w] Hw. simpl. apply Forall_app. split; [exact Hw|].
    constructor; [|constructor]. exact (evaluate_input_number_in_range _ _ _ Hclass).
  - apply keeps_range_bind; [|intros; keeps_same].
    intros [d w] Hw. unfold on_stack. simpl.
    pose proof (operate_in_range op w Hw) as Hr.
    destruct (operate op w); exact Hr.
  - destruct (_ || _); [keeps_same|].
    apply keeps_range_bind; [destruct (nth_error input (i + 1)); keeps_same|intro name].
    destruct (starts_with_digit name); [keeps_same|].
    apply keeps_range_bind; [keeps_same|intro d].
    apply keeps_range_bind; [keeps_same|intros; keeps_same].
  - apply keeps_range_bind; [|intros; keeps_same].
    apply keeps_range_body_loop. intros. apply IH.
  - keeps_same.
Qed.

Lemma keeps_range_top_loop :
  forall steps i input, keeps_range (top_loop steps i input).
Proof.
  induction steps as [|steps IH]; intros i input; cbn [top_loop].
  - destruct (i <? length input)%nat; keeps_same.
  - destruct (i <? length input)%nat; [|keeps_same].
    apply keeps_range_bind; [keeps_same|intro d].
    apply keeps_range_bind; [apply keeps_range_evaluate_character|intro j; apply IH].
Qed.

(** Every value on the stack of a reachable instance is an [i32]: literals
    are parsed within range, [+ - *] wrap, and [/] either stays in range or
    fails. *)
Theorem reachable_stack_in_i32 :
  forall st, reachable st -> Forall in_i32 (stack st).
Proof.
  induction 1 as [|st text _ IH]; [constructor|].
  unfold eval.
  pose proof (keeps_range_top_loop (length (split_whitespace text)) 0
                (split_whitespace text) (mkMachine (definitions st) []) (Forall_nil _))
    as Hr.
  destruct (top_loop _ _ _ _) as [m o]. simpl in Hr.
  destruct o; simpl; [exact Hr|exact IH|exact IH|exact IH].
Qed.

Lemma reachable_stack_in_i32_witness :
  reachable (fst (eval new "2147483647 1 +")) /\
  Forall in_i32 (stack (fst (eval new "2147483647 1 +"))).
Proof.
  assert (H : reachable (fst (eval new "2147483647 1 +")))
    by (apply reachable_eval, reachable_new).
  split; [exact H | exact (reachable_stack_in_i32 _ H)].
Defined.

(** ** Tokenisation by [split_whitespace] *)

Lemma str_app_nil (s : string) : (s ++ "")%string = s.
Proof. induction s as [|c s IH]; simpl; [reflexivity|rewrite IH; reflexivity]. Qed.

Lemma str_app_assoc (a b c : string) : ((a ++ b) ++ c)%string = (a ++ (b ++ c))%string.
Proof. induction a as [|x a IH]; simpl; [reflexivity|rewrite IH; reflexivity]. Qed.

Lemma no_ws_app (a b : string) : no_ws (a ++ b) = no_ws a && no_ws b.
Proof.
  induction a as [|c a IH]; simpl; [reflexivity|].
  rewrite IH. destruct (is_whitespace c); reflexivity.
Qed.

Lemma split_ws_word (t r cur : string) :
  no_ws t = true -> split_ws (t ++ r) cur = split_ws r (cur ++ t).
Proof.
  revert cur. induction t as [|c t IH]; intros cur Ht; simpl.
  - rewrite str_app_nil. reflexivity.
  - simpl in Ht. apply andb_prop in Ht as [Hc Ht].
    destruct (is_whitespace c); [discriminate|].
    rewrite IH by exact Ht. rewrite str_app_assoc. reflexivity.
Qed.

Lemma split_ws_tokens (s cur t : string) :
  no_ws cur = true -> In t (split_ws s cur) -> t <> ""%string /\ no_ws t = true.
Proof.
  revert cur. induction s as [|c s IH]; intros cur Hcur; simpl.
  - destruct (String.eqb_spec cur ""); simpl; [tauto|].
    intros [<-|[]]. split; assumption.
  - destruct (is_whitespace c) eqn:Hc.
    + destruct (String.eqb_spec cur "").
      * apply IH. reflexivity.
      * intros [<-|Hin]; [split; assumption|]. revert Hin. apply IH. reflexivity.
    + apply IH. rewrite no_ws_app, Hcur. simpl. rewrite Hc. reflexivity.
Qed.

Lemma split_ws_all_ws (s cur : string) :
  all_ws s = true ->
  split_ws s cur = if String.eqb cur "" then [] else [cur].
Proof.
  revert cur. induction s as [|c s IH]; intros cur Hs; simpl; [reflexivity|].
  simpl in Hs. apply andb_prop in Hs as [Hc Hs]. rewrite Hc.
  destruct (String.eqb_spec cur ""); rewrite IH by exact Hs; reflexivity.
Qed.

(** Every token that [split_whitespace] produces is non-empty and free of
    whitespace. *)
Theorem split_whitespace_tokens (text t : string) :
  In t (split_whitespace text) -> t <> ""%string /\ no_ws t = true.
Proof. apply split_ws_tokens. reflexivity. Qed.

Lemma split_whitespace_tokens_witness :
  In "dup"%string (split_whitespace " 1  dup	+ ") /\
  ("dup"%string <> ""%string /\ no_ws "dup" = true).
Proof.
  assert (H : In "dup"%string (split_whitespace " 1  dup	+ ")) by (vm_compute; tauto).
  split; [exact H | exact (split_whitespace_tokens _ _ H)].
Defined.

(** Joining non-empty, whitespace-free tokens with single spaces and
    splitting again gives the tokens back. *)
Theorem split_whitespace_concat (toks : list string) :
  Forall (fun t => t <> ""%string /\ no_ws t = true) toks ->
  split_whitespace (String.concat " " toks) = toks.
Proof.
  unfold split_whitespace. induction 1 as [|t toks [Hne Hws] Hall IH]; [reflexivity|].
  destruct toks as [|t' toks].
  - simpl String.concat. rewrite <- (str_app_nil t) at 1.
    rewrite split_ws_word by exact Hws. simpl.
    destruct (String.eqb_spec t ""); [contradiction|reflexivity].
  - change (String.concat " " (t :: t' :: toks))
      with (t ++ String " " (String.concat " " (t' :: toks)))%string.
    rewrite split_ws_word by exact Hws. cbn [split_ws].
    change (("" ++ t)%string) with t. change (is_whitespace " ") with true.
    cbv iota. destruct (String.eqb_spec t ""); [contradiction|].
    rewrite IH. reflexivity.
Qed.

Lemma split_whitespace_concat_witness :
  Forall (fun t => t <> ""%string /\ no_ws t = true) ["1"; "2"; "SWAP"]%string /\
  split_whitespace (String.concat " " ["1"; "2"; "SWAP"]%string) = ["1"; "2"; "SWAP"]%string.
Proof.
  assert (H : Forall (fun t => t <> ""%string /\ no_ws t = true) ["1"; "2"; "SWAP"]%string)
    by (repeat constructor; discriminate).
  split; [exact H | exact (split_whitespace_concat _ H)].
Defined.

(** Text made only of whitespace evaluates successfully to an empty stack
    and leaves the dictionary alone. *)
Theorem eval_blank (st : Forth) (text : string) :
  all_ws text = true -> eval st text = (mkForth [] (definitions st), Ok tt).
Proof.
  intro Hws. unfold eval, split_whitespace.
  rewrite (split_ws_all_ws text "" Hws). reflexivity.
Qed.

Lemma eval_blank_witness :
  all_ws " 	 " = true /\ eval (mkForth [1; 2] []) " 	 " = (mkForth [] [], Ok tt).
Proof.
  assert (H : all_ws " 	 " = true) by reflexivity.
  split; [exact H | exact (eval_blank (mkForth [1; 2] []) _ H)].
Defined.

(** ** Case of tokens *)

Ltac ascii_cases c := destruct c as [[] [] [] [] [] [] [] []].

Lemma ascii_to_upper_idem (c : ascii) :
  ascii_to_upper (ascii_to_upper c) = ascii_to_upper c.
Proof. ascii_cases c; vm_compute; reflexivity. Qed.

(** Upper-casing leaves a character alone, or it changes a lower-case letter,
    which is neither a digit, a sign nor a colon before or after. *)
Lemma ascii_to_upper_cases (c : ascii) :
  ascii_to_upper c = c \/
  (is_digit10 c = false /\ is_digit10 (ascii_to_upper c) = false /\
   Ascii.eqb c "+" = false /\ Ascii.eqb (ascii_to_upper c) "+" = false /\
   Ascii.eqb c "-" = false /\ Ascii.eqb (ascii_to_upper c) "-" = false /\
   Ascii.eqb c ":" = false /\ Ascii.eqb (ascii_to_upper c) ":" = false).
Proof.
  ascii_cases c; vm_compute;
    first [left; reflexivity | right; repeat split].
Qed.

Lemma to_uppercase_idem (s : string) : to_uppercase (to_uppercase s) = to_uppercase s.
Proof.
  induction s as [|c s IH]; simpl; [reflexivity|].
  rewrite ascii_to_upper_idem, IH. reflexivity.
Qed.

Lemma digits_value_upper (s : string) (acc : Z) :
  digits_value (to_uppercase s) acc = digits_value s acc.
Proof.
  revert acc. induction s as [|c s IH]; intro acc; [reflexivity|].
  cbn [to_uppercase digits_value].
  destruct (ascii_to_upper_cases c) as [E|(D1 & D2 & _)].
  - rewrite E. destruct (is_digit10 c); [apply IH|reflexivity].
  - rewrite D1, D2. reflexivity.
Qed.

Lemma parse_digits_upper (s : string) : parse_digits (to_uppercase s) = parse_digits s.
Proof.
  destruct s as [|c s]; [reflexivity|].
  unfold parse_digits. cbn [to_uppercase].
  exact (digits_value_upper (String c s) 0).
Qed.

Lemma parse_i32_cons (c : ascii) (x : string) :
  parse_i32 (String c x) =
  match (if Ascii.eqb c "+" then parse_digits x
         else if Ascii.eqb c "-" then option_map Z.opp (parse_digits x)
         else parse_digits (String c x)) with
  | Some z => if (i32_min <=? z) && (z <=? i32_max) then Some z else None
  | None => None
  end.
Proof. ascii_cases c; reflexivity. Qed.

Lemma parse_i32_upper (s : string) : parse_i32 (to_uppercase s) = parse_i32 s.
Proof.
  destruct s as [|c s]; [reflexivity|]. cbn [to_uppercase].
  rewrite !parse_i32_cons.
  destruct (ascii_to_upper_cases c) as [E|(D1 & D2 & P1 & P2 & M1 & M2 & _)].
  - rewrite E, parse_digits_upper.
    replace (String c (to_uppercase s)) with (to_uppercase (String c s))
      by (cbn [to_uppercase]; rewrite E; reflexivity).
    rewrite parse_digits_upper. reflexivity.
  - rewrite P1, P2, M1, M2. unfold parse_digits. cbn [digits_value].
    rewrite D1, D2. reflexivity.
Qed.

Lemma colon_upper (tok : string) :
  String.eqb (to_uppercase tok) ":" = String.eqb tok ":".
Proof.
  destruct tok as [|c [|c' r]]; [reflexivity| |].
  - cbn [to_uppercase String.eqb].
    destruct (ascii_to_upper_cases c) as [E|(_ & _ & _ & _ & _ & _ & C1 & C2)].
    + rewrite E. reflexivity.
    + rewrite C1, C2. reflexivity.
  - cbn [to_uppercase String.eqb].
    destruct (Ascii.eqb (ascii_to_upper c) ":"), (Ascii.eqb c ":"); reflexivity.
Qed.

(** Token classification ignores letter case: words, built-in operators and
    numbers are recognised the same whether the token is typed in upper or
    lower case. *)
Theorem evaluate_input_case_insensitive (tok : string) (defs : list Var) :
  evaluate_input (to_uppercase tok) defs = evaluate_input tok defs.
Proof.
  unfold evaluate_input. rewrite colon_upper, to_uppercase_idem, parse_i32_upper.
  reflexivity.
Qed.

(** ** Definitions of words *)

Lemma take_while_body (body rest : list string) :
  ~ In ";"%string body ->
  take_while (fun x => negb (is_semi x)) (body ++ ";"%string :: rest) = body.
Proof.
  induction body as [|x body IH]; intro Hb; [reflexivity|]. simpl. unfold is_semi.
  destruct (String.eqb_spec x ";"); [subst; exfalso; apply Hb; left; reflexivity|].
  simpl. f_equal. apply IH. intro H; apply Hb; right; exact H.
Qed.

Lemma position_some {A} (p : A -> bool) (l : list A) (x : A) :
  In x l -> p x = true -> exists k, position p l = Some k.
Proof.
  induction l as [|y l IH]; simpl; [tauto|]. intros Hin Hx.
  destruct (p y) eqn:Hy; [eauto|].
  destruct Hin as [<-|Hin]; [congruence|].
  destruct (IH Hin Hx) as [k Hk]. rewrite Hk. exists (S k); reflexivity.
Qed.

Lemma top_loop_done (steps i : nat) (input : list string) (s : Machine) :
  (length input <= i)%nat -> top_loop steps i input s = (s, Ok tt).
Proof.
  intro H. destruct steps; cbn [top_loop];
    rewrite (proj2 (Nat.ltb_ge i (length input)) H); reflexivity.
Qed.

Lemma evaluate_character_define depth pre name body rest defs D w :
  body <> [] -> ~ In ";"%string body -> starts_with_digit name = false ->
  evaluate_character (S depth) (length pre)
    (pre ++ ":"%string :: name :: body ++ ";"%string :: rest) defs (mkMachine D w)
  = (mkMachine (D ++ [mkVar (to_uppercase name) body (length D)]) w,
     Ok (length pre + (length body + 2))%nat).
Proof.
  intros Hne Hb Hname.
  set (input := pre ++ ":"%string :: name :: body ++ ";"%string :: rest).
  assert (Hi : nth_error input (length pre) = Some ":"%string).
  { unfold input. rewrite nth_error_app2, Nat.sub_diag by lia. reflexivity. }
  assert (Hi1 : nth_error input (length pre + 1) = Some name).
  { unfold input. rewrite nth_error_app2 by lia.
    replace (length pre + 1 - length pre)%nat with 1%nat by lia. reflexivity. }
  assert (Hsk : skipn (length pre + 2) input = body ++ ";"%string :: rest).
  { unfold input. rewrite skipn_app, skipn_all2 by lia.
    replace (length pre + 2 - length pre)%nat with 2%nat by lia. reflexivity. }
  assert (Hpos : exists k, position is_semi input = Some k).
  { apply (position_some _ _ ";"%string); [|reflexivity].
    unfold input. apply in_or_app. right. right. right. apply in_or_app.
    right. left. reflexivity. }
  destruct Hpos as [k Hk].
  assert (Hlen : (length body <? 1)%nat = false).
  { destruct body; [contradiction|reflexivity]. }
  cbn [evaluate_character]. st_unfold. rewrite Hi.
  change (evaluate_input ":" defs) with IV_Definition. cbv beta iota zeta.
  rewrite Hsk, (take_while_body _ _ Hb), Hk, Hlen. simpl orb. cbv iota.
  rewrite Hi1, Hname. reflexivity.
Qed.

(** A text consisting of one definition [: name body ;] adds one entry at
    the end of the dictionary: the upper-cased name, the body tokens as they
    were typed and, as snapshot index, the number of entries before it; the
    resulting stack is empty. *)
Theorem eval_define_word (st : Forth) (text name : string) (body : list string) :
  split_whitespace text = ":"%string :: name :: body ++ [";"%string] ->
  body <> [] -> ~ In ";"%string body -> starts_with_digit name = false ->
  eval st text
  = (mkForth [] (definitions st ++
                 [mkVar (to_uppercase name) body (length (definitions st))]),
     Ok tt).
Proof.
  intros Hsplit Hne Hb Hname. unfold eval. rewrite Hsplit.
  set (input := ":"%string :: name :: body ++ [";"%string]).
  assert (Hlen : length input = (length body + 3)%nat)
    by (unfold input; simpl; rewrite length_app; simpl; lia).
  rewrite Hlen. replace (length body + 3)%nat with (S (length body + 2)) by lia.
  cbn [top_loop]. replace (0 <? length input)%nat with true
    by (rewrite Hlen; symmetry; apply Nat.ltb_lt; lia).
  st_unfold.
  pose proof (evaluate_character_define (length (definitions st)) [] name body []
                (definitions st) (definitions st) [] Hne Hb Hname) as Hev.
  cbn [length app Nat.add] in Hev. fold input in Hev. cbn [self_definitions].
  rewrite Hev.
  cbv beta iota. rewrite top_loop_done by lia. reflexivity.
Qed.

Lemma eval_define_word_witness :
  split_whitespace ": sq dup * ;" = [":"; "sq"] ++ ["dup"; "*"] ++ [";"] /\
  eval new ": sq dup * ;" = (mkForth [] [mkVar "SQ" ["dup"; "*"] 0], Ok tt).
Proof.
  assert (H : split_whitespace ": sq dup * ;" = [":"; "sq"] ++ ["dup"; "*"] ++ [";"])
    by reflexivity.
  split; [exact H|].
  exact (eval_define_word new ": sq dup * ;" "sq" ["dup"; "*"] H
           ltac:(discriminate) ltac:(simpl; intuition discriminate) eq_refl).
Defined.

Lemma eval_first_error (st : Forth) (text : string) (e : Error) :
  split_whitespace text <> [] ->
  evaluate_character (S (length (definitions st))) 0 (split_whitespace text)
    (definitions st) (mkMachine (definitions st) [])
  = (mkMachine (definitions st) [], Err e) ->
  eval st text = (st, Err e).
Proof.
  intros Hne Hev. unfold eval.
  destruct (split_whitespace text) as [|tok toks] eqn:Hs; [contradiction|].
  cbn [length top_loop]. st_unfold. cbn [Nat.ltb Nat.leb]. cbv beta iota.
  cbn [self_definitions]. rewrite Hev. destruct st; reflexivity.
Qed.

(** A text that opens a definition with no [;] anywhere in it fails with
    InvalidWord and leaves the instance unchanged. *)
Theorem eval_reject_unterminated (st : Forth) (text : string) (toks : list string) :
  split_whitespace text = ":"%string :: toks -> ~ In ";"%string toks ->
  eval st text = (st, Err InvalidWord).
Proof.
  intros Hs Hno. apply eval_first_error; [rewrite Hs; discriminate|]. rewrite Hs.
  cbn [evaluate_character]. st_unfold. cbn [nth_error].
  change (evaluate_input ":" (definitions st)) with IV_Definition. cbv beta iota zeta.
  rewrite position_none; [reflexivity|].
  intros x [<-|Hx]; [reflexivity|].
  unfold is_semi. destruct (String.eqb_spec x ";"); [subst; contradiction|reflexivity].
Qed.

Lemma eval_reject_unterminated_witness :
  split_whitespace ": foo 1 2" = [":"; "foo"; "1"; "2"] /\
  ~ In ";"%string ["foo"; "1"; "2"] /\
  eval (mkForth [5] []) ": foo 1 2" = (mkForth [5] [], Err InvalidWord).
Proof.
  assert (H1 : split_whitespace ": foo 1 2" = [":"; "foo"; "1"; "2"]) by reflexivity.
  assert (H2 : ~ In ";"%string ["foo"; "1"; "2"]) by (simpl; intuition discriminate).
  split; [exact H1|split; [exact H2|]].
  exact (eval_reject_unterminated (mkForth [5] []) _ _ H1 H2).
Defined.

(** A definition whose body is empty ([: name ;]) fails with InvalidWord and
    leaves the instance unchanged. *)
Theorem eval_reject_empty_body (st : Forth) (text name : string) (toks : list string) :
  split_whitespace text = ":"%string :: name :: ";"%string :: toks ->
  eval st text = (st, Err InvalidWord).
Proof.
  intros Hs. apply eval_first_error; [rewrite Hs; discriminate|]. rewrite Hs.
  cbn [evaluate_character]. st_unfold. cbn [nth_error].
  change (evaluate_input ":" (definitions st)) with IV_Definition. cbv beta iota zeta.
  cbn [skipn Nat.add take_while]. change (negb (is_semi ";")) with false.
  cbv iota. cbn [length]. rewrite orb_true_r. reflexivity.
Qed.

Lemma eval_reject_empty_body_witness :
  split_whitespace ": foo ; 1" = [":"; "foo"; ";"; "1"] /\
  eval (mkForth [5] []) ": foo ; 1" = (mkForth [5] [], Err InvalidWord).
Proof.
  assert (H : split_whitespace ": foo ; 1" = [":"; "foo"; ";"; "1"]) by reflexivity.
  split; [exact H | exact (eval_reject_empty_body (mkForth [5] []) _ _ _ H)].
Defined.

(** A definition whose name starts with a decimal digit fails with
    InvalidWord and leaves the instance unchanged, even when it is otherwise
    well formed. *)
Theorem eval_reject_numeric_name (st : Forth) (text name : string)
    (body rest : list string) :
  split_whitespace text = ":"%string :: name :: body ++ ";"%string :: rest ->
  body <> [] -> ~ In ";"%string body -> starts_with_digit name = true ->
  eval st text = (st, Err InvalidWord).
Proof.
  intros Hs Hne Hb Hname. apply eval_first_error; [rewrite Hs; discriminate|].
  rewrite Hs.
  assert (Hpos : exists k,
            position is_semi (":"%string :: name :: body ++ ";"%string :: rest) = Some k).
  { apply (position_some _ _ ";"%string); [|reflexivity].
    right. right. apply in_or_app. right. left. reflexivity. }
  destruct Hpos as [k Hk].
  assert (Hlen : (length body <? 1)%nat = false).
  { destruct body; [contradiction|reflexivity]. }
  cbn [evaluate_character]. st_unfold. cbn [nth_error].
  change (evaluate_input ":" (definitions st)) with IV_Definition. cbv beta iota zeta.
  cbn [skipn Nat.add].
  rewrite (take_while_body _ _ Hb), Hk, Hlen. simpl orb. cbv iota.
  cbn [nth_error]. rewrite Hname. reflexivity.
Qed.

Lemma eval_reject_numeric_name_witness :
  split_whitespace ": 2x dup ;" = [":"; "2x"] ++ ["dup"] ++ [";"] /\
  eval (mkForth [5] []) ": 2x dup ;" = (mkForth [5] [], Err InvalidWord).
Proof.
  assert (H : split_whitespace ": 2x dup ;" = [":"; "2x"] ++ ["dup"] ++ [";"])
    by reflexivity.
  split; [exact H|].
  exact (eval_reject_numeric_name (mkForth [5] []) _ "2x" ["dup"] [] H
           ltac:(discriminate) ltac:(simpl; intuition discriminate) eq_refl).
Defined.

(** ** Runs of numeric literals *)

Definition is_number_token (D : list Var) (t : string) : Prop :=
  exists n, evaluate_input t D = IV_Number n.

Lemma evaluate_character_number depth i input D M w t :
  nth_error input i = Some t -> is_number_token D t ->
  evaluate_character (S depth) i input D (mkMachine M w)
  = (mkMachine M (w ++ [number_value D t]), Ok i).
Proof.
  intros Hi [n Hn]. cbn [evaluate_character]. st_unfold. rewrite Hi.
  unfold number_value. rewrite Hn. reflexivity.
Qed.

Lemma top_loop_numbers (D : list Var) (pre : list string) :
  Forall (is_number_token D) pre ->
  forall done suf steps w,
    (length pre <= steps)%nat ->
    top_loop steps (length done) (done ++ pre ++ suf) (mkMachine D w)
    = top_loop (steps - length pre) (length done + length pre) (done ++ pre ++ suf)
        (mkMachine D (w ++ map (number_value D) pre)).
Proof.
  induction 1 as [|t pre Ht Hpre IH]; intros done suf steps w Hs.
  - rewrite Nat.sub_0_r, Nat.add_0_r, app_nil_r. reflexivity.
  - destruct steps as [|steps]; [simpl in Hs; lia|].
    cbn [top_loop]. rewrite (proj2 (Nat.ltb_lt _ _))
      by (rewrite !length_app; simpl; lia).
    st_unfold. cbn [self_definitions].
    rewrite (evaluate_character_number _ _ _ _ _ _ t);
      [|rewrite nth_error_app2, Nat.sub_diag by lia; reflexivity|exact Ht].
    cbv beta iota.
    replace (done ++ (t :: pre) ++ suf) with ((done ++ [t]) ++ pre ++ suf)
      by (rewrite <- app_assoc; reflexivity).
    replace (S (length done)) with (length (done ++ [t]))
      by (rewrite length_app; simpl; lia).
    rewrite IH by (simpl in Hs; lia).
    rewrite length_app, <- app_assoc. simpl.
    replace (steps - length pre)%nat with (S steps - S (length pre))%nat by lia.
    f_equal; [lia|]. rewrite <- app_assoc. reflexivity.
Qed.

(** A text made only of numeric literals evaluates successfully to the
    stack of their values, in the order they were written. *)
Theorem eval_numbers (st : Forth) (text : string) :
  Forall (is_number_token (definitions st)) (split_whitespace text) ->
  eval st text
  = (mkForth (map (number_value (definitions st)) (split_whitespace text))
             (definitions st), Ok tt).
Proof.
  intro Hall. unfold eval.
  pose proof (top_loop_numbers _ _ Hall [] [] (length (split_whitespace text)) []
                (le_n _)) as Hl.
  rewrite !app_nil_r in Hl. simpl in Hl. rewrite Hl.
  rewrite top_loop_done by lia. reflexivity.
Qed.

Lemma eval_numbers_witness :
  Forall (is_number_token []) (split_whitespace "1 -2 +3") /\
  eval new "1 -2 +3" = (mkForth [1; -2; 3] [], Ok tt).
Proof.
  assert (H : Forall (is_number_token []) (split_whitespace "1 -2 +3")).
  { repeat constructor; eexists; reflexivity. }
  split; [exact H | exact (eval_numbers new _ H)].
Defined.

(** A token that is neither a word, an operator nor a number makes [eval]
    fail with UnknownWord, and the values pushed by the literals before it
    are discarded: the instance is left unchanged. *)
Theorem eval_unknown_after_numbers (st : Forth) (text tok : string)
    (pre rest : list string) :
  split_whitespace text = pre ++ tok :: rest ->
  Forall (is_number_token (definitions st)) pre ->
  evaluate_input tok (definitions st) = IV_Void ->
  eval st text = (st, Err UnknownWord).
Proof.
  intros Hs Hall Hv. unfold eval. rewrite Hs.
  pose proof (top_loop_numbers _ _ Hall [] (tok :: rest) (length (pre ++ tok :: rest)) []
                ltac:(rewrite length_app; lia)) as Hl.
  cbn [length app] in Hl. rewrite Hl.
  rewrite length_app. simpl length.
  replace (length pre + S (length rest) - length pre)%nat with (S (length rest)) by lia.
  cbn [top_loop]. rewrite (proj2 (Nat.ltb_lt _ _)) by (rewrite length_app; simpl; lia).
  st_unfold. cbn [self_definitions evaluate_character].
  st_unfold. rewrite nth_error_app2, Nat.sub_diag by lia. cbn [nth_error].
  rewrite Hv. destruct st; reflexivity.
Qed.

Lemma eval_unknown_after_numbers_witness :
  split_whitespace "1 2 frob 3" = ["1"; "2"] ++ "frob" :: ["3"] /\
  Forall (is_number_token []) ["1"; "2"] /\
  evaluate_input "frob" [] = IV_Void /\
  eval (mkForth [9] []) "1 2 frob 3" = (mkForth [9] [], Err UnknownWord).
Proof.
  assert (H1 : split_whitespace "1 2 frob 3" = ["1"; "2"] ++ "frob" :: ["3"])
    by reflexivity.
  assert (H2 : Forall (is_number_token []) ["1"; "2"])
    by (repeat constructor; eexists; reflexivity).
  assert (H3 : evaluate_input "frob" [] = IV_Void) by reflexivity.
  split; [exact H1|split; [exact H2|split; [exact H3|]]].
  exact (eval_unknown_after_numbers (mkForth [9] []) _ _ _ _ H1 H2 H3).
Defined.

Lemma skipn_nth_error_cons {A} (l : list A) (j : nat) (x : A) :
  nth_error l j = Some x -> skipn j l = x :: skipn (S j) l.
Proof.
  revert l. induction j as [|j IH]; intros [|y l] H; try discriminate.
  - injection H as ->. reflexivity.
  - exact (IH l H).
Qed.

Lemma body_numbers (depth : nat) (vis M : list Var) (body : list string) :
  Forall (is_number_token vis) body ->
  forall steps j w,
    (length body <= j + steps)%nat ->
    body_loop_fixed (evaluate_character (S depth)) vis body steps j (mkMachine M w)
    = (mkMachine M (w ++ map (number_value vis) (skipn j body)), Ok tt).
Proof.
  intros Hall. induction steps as [|steps IH]; intros j w Hlen; cbn [body_loop_fixed].
  - rewrite (proj2 (Nat.ltb_ge _ _)) by lia.
    rewrite skipn_all2 by lia. rewrite app_nil_r. reflexivity.
  - destruct (Nat.ltb_spec j (length body)) as [Hj|Hj].
    + destruct (nth_error body j) as [t|] eqn:Ht;
        [|apply nth_error_None in Ht; lia].
      assert (Htn : is_number_token vis t).
      { rewrite Forall_forall in Hall. apply Hall. exact (nth_error_In _ _ Ht). }
      st_unfold. rewrite (evaluate_character_number _ _ _ _ _ _ t Ht Htn).
      cbv beta iota. rewrite IH by lia. rewrite <- app_assoc.
      rewrite (skipn_nth_error_cons body j t Ht). reflexivity.
    + rewrite skipn_all2 by lia. rewrite app_nil_r. reflexivity.
Qed.

(** A word defined in a text can be used later in the same text: defining
    [name] with a body of numeric literals and then calling [name] pushes
    the literals' values, and the dictionary keeps the new entry. *)
Theorem eval_define_then_call (st : Forth) (text name : string) (body : list string) :
  reachable st ->
  split_whitespace text = ":"%string :: name :: body ++ [";"%string; name] ->
  body <> [] -> ~ In ";"%string body -> starts_with_digit name = false ->
  name <> ":"%string ->
  Forall (is_number_token (definitions st)) body ->
  eval st text
  = (mkForth (map (number_value (definitions st)) body)
             (definitions st ++
              [mkVar (to_uppercase name) body (length (definitions st))]),
     Ok tt).
Proof.
  intros Hr Hs Hne Hb Hname Hcolon Hnum. unfold eval. rewrite Hs.
  set (D := definitions st) in *.
  set (v := mkVar (to_uppercase name) body (length D)).
  set (input := ":"%string :: name :: body ++ [";"%string; name]).
  assert (Hlen : length input = (length body + 4)%nat)
    by (unfold input; simpl; rewrite length_app; simpl; lia).
  assert (Hwf : wf_defs (D ++ [v])).
  { apply wf_push; [exact (reachable_wf st Hr)|].
    intros x Hx. unfold is_semi. destruct (String.eqb_spec x ";"); [|reflexivity].
    subst. contradiction. }
  assert (Hstep1 : evaluate_character (S (length D)) 0 input D (mkMachine D [])
                   = (mkMachine (D ++ [v]) [], Ok (length body + 2)%nat)).
  { exact (evaluate_character_define (length D) [] name body [name] D D []
             Hne Hb Hname). }
  assert (Hstep2 : evaluate_character (S (length (D ++ [v]))) (length body + 3) input
                     (D ++ [v]) (mkMachine (D ++ [v]) [])
                   = (mkMachine (D ++ [v]) (map (number_value D) body),
                      Ok (length body + 3)%nat)).
  { assert (Htok : nth_error input (length body + 3) = Some name).
    { unfold input. replace (length body + 3)%nat with (S (S (length body + 1))) by lia.
      cbn [nth_error]. rewrite nth_error_app2 by lia.
      replace (length body + 1 - length body)%nat with 1%nat by lia. reflexivity. }
    assert (Hcls : evaluate_input name (D ++ [v]) = IV_Variable v).
    { apply evaluate_input_latest; [exact Hcolon|reflexivity|intros x []]. }
    cbn [evaluate_character]. st_unfold. rewrite Htok. cbv beta iota.
    rewrite Hcls.
    change (run_body (evaluate_character (length (D ++ [v]))) v)
      with (run_word (length (D ++ [v])) v).
    rewrite (run_word_fixed _ _ (length D) v [] Hwf)
      by (rewrite nth_error_app2, Nat.sub_diag by lia; reflexivity).
    unfold run_fixed. cbn [definitions_index definition v].
    rewrite firstn_app, Nat.sub_diag, firstn_all. cbn [firstn]. rewrite app_nil_r.
    rewrite length_app, Nat.add_1_r.
    rewrite (body_numbers _ _ _ _ Hnum) by lia. reflexivity. }
  rewrite Hlen. replace (length body + 4)%nat with (S (S (length body + 2))) by lia.
  cbn [top_loop]. rewrite (proj2 (Nat.ltb_lt 0 (length input))) by lia.
  st_unfold. cbn [self_definitions]. rewrite Hstep1. cbv beta iota.
  cbn [top_loop]. rewrite (proj2 (Nat.ltb_lt _ (length input))) by lia.
  cbn [self_definitions].
  replace (S (length body + 2)) with (length body + 3)%nat by lia.
  rewrite Hstep2. cbv beta iota.
  rewrite top_loop_done by lia. reflexivity.
Qed.

Lemma eval_define_then_call_witness :
  reachable new /\
  split_whitespace ": two 1 1 ; two" = [":"; "two"] ++ ["1"; "1"] ++ [";"; "two"] /\
  eval new ": two 1 1 ; two" = (mkForth [1; 1] [mkVar "TWO" ["1"; "1"] 0], Ok tt).
Proof.
  assert (H : split_whitespace ": two 1 1 ; two" = [":"; "two"] ++ ["1"; "1"] ++ [";"; "two"])
    by reflexivity.
  split; [exact reachable_new|split; [exact H|]].
  exact (eval_define_then_call new _ "two" ["1"; "1"] reachable_new H
           ltac:(discriminate) ltac:(simpl; intuition discriminate) eq_refl
           ltac:(discriminate)
           ltac:(repeat constructor; eexists; reflexivity)).
Defined.

(** ** The dictionary over a sequence of [eval] calls *)

(** [eval] only ever appends to the dictionary, successful or not, and the
    dictionary stays well formed: entry [p] records snapshot index [p] and
    its body holds no [;]. *)
Theorem eval_dictionary_append_only (st : Forth) (text : string) :
  reachable st ->
  (exists E, definitions (fst (eval st text)) = definitions st ++ E) /\
  wf_defs (definitions (fst (eval st text))).
Proof.
  intro Hr. destruct (eval_safe st text (reachable_wf st Hr)) as [Hwf [HE _]].
  split; [exact HE|exact Hwf].
Qed.

Lemma eval_dictionary_append_only_witness :
  reachable (fst (eval new ": a 1 ;")) /\
  (exists E, definitions (fst (eval (fst (eval new ": a 1 ;")) ": b a ; 1 0 /"))
             = definitions (fst (eval new ": a 1 ;")) ++ E) /\
  wf_defs (definitions (fst (eval (fst (eval new ": a 1 ;")) ": b a ; 1 0 /"))).
Proof.
  assert (H : reachable (fst (eval new ": a 1 ;")))
    by (apply reachable_eval, reachable_new).
  split; [exact H | exact (eval_dictionary_append_only _ _ H)].
Defined.

(** ** Signs of numeric literals *)

Lemma digit_not_sign (c : ascii) :
  is_digit10 c = true -> Ascii.eqb c "+" = false /\ Ascii.eqb c "-" = false.
Proof. ascii_cases c; vm_compute; first [discriminate | intros _; split; reflexivity]. Qed.

Lemma digits_value_nonneg (s : string) :
  forall acc n, 0 <= acc -> digits_value s acc = Some n -> 0 <= n.
Proof.
  induction s as [|c s IH]; intros acc n Hacc; simpl.
  - intro H; injection H as <-; exact Hacc.
  - destruct (is_digit10 c) eqn:Hc; [|discriminate]. apply IH.
    unfold is_digit10 in Hc. apply andb_prop in Hc as [H1 _].
    apply Nat.leb_le in H1. lia.
Qed.

(** Signs of literals: a leading [+] changes nothing, a leading [-] negates,
    and the range is checked after the sign, so the magnitude [2^31] is a
    number only when negative. *)
Theorem parse_i32_sign (s : string) (n : Z) :
  parse_digits s = Some n ->
  parse_i32 s = (if n <=? 2 ^ 31 - 1 then Some n else None) /\
  parse_i32 (String "+" s) = parse_i32 s /\
  parse_i32 (String "-" s) = (if n <=? 2 ^ 31 then Some (- n) else None).
Proof.
  intro Hd.
  assert (Hn : 0 <= n).
  { destruct s as [|c s]; [discriminate|].
    exact (digits_value_nonneg _ 0 n ltac:(lia) Hd). }
  assert (Hs : parse_i32 s = (if n <=? 2 ^ 31 - 1 then Some n else None)).
  { destruct s as [|c s]; [discriminate|]. rewrite parse_i32_cons.
    assert (Hc : is_digit10 c = true).
    { unfold parse_digits in Hd. simpl in Hd.
      destruct (is_digit10 c); [reflexivity|discriminate]. }
    destruct (digit_not_sign c Hc) as [-> ->]. rewrite Hd.
    unfold i32_min, i32_max.
    destruct (Z.leb_spec n (2 ^ 31 - 1)); destruct (Z.leb_spec (- 2 ^ 31) n);
      simpl; reflexivity || lia. }
  split; [exact Hs|split].
  - rewrite Hs. unfold parse_i32 at 1. rewrite Hd. unfold i32_min, i32_max.
    destruct (Z.leb_spec n (2 ^ 31 - 1)); destruct (Z.leb_spec (- 2 ^ 31) n);
      simpl; reflexivity || lia.
  - unfold parse_i32. rewrite Hd. simpl option_map. unfold i32_min, i32_max.
    destruct (Z.leb_spec n (2 ^ 31)); destruct (Z.leb_spec (- 2 ^ 31) (- n));
      destruct (Z.leb_spec (- n) (2 ^ 31 - 1)); simpl; reflexivity || lia.
Qed.

Lemma parse_i32_sign_witness :
  parse_digits "2147483648" = Some 2147483648 /\
  parse_i32 "2147483648" = None /\
  parse_i32 "+2147483648" = parse_i32 "2147483648" /\
  parse_i32 "-2147483648" = Some (-2147483648).
Proof.
  assert (H : parse_digits "2147483648" = Some 2147483648) by reflexivity.
  destruct (parse_i32_sign _ _ H) as [H1 [H2 H3]].
  split; [exact H|split; [rewrite H1; reflexivity|split; [exact H2|rewrite H3; reflexivity]]].
Defined.
